(** * TTS service: streaming synthesis pipeline

    A shallow embedding of [api/src/services/tts_service.py] (class
    [TTSService]) and the properties of its streaming pipeline.

    The service talks to collaborators that live in other modules (the model
    manager, the voice manager, the audio service, the text segmenter, torch
    and the temporary directory).  They are gathered in the record [env], one
    field per call the service makes.  A Python [str] is the [string] of its
    UTF-8 encoding; a float32 is an element of an abstract carrier [F] with
    the few operations torch needs, instantiated with the rationals and with
    IEEE-754 binary32 where the pipeline is run. *)

From stdpp Require Import base strings list gmap pretty.
From Stdlib Require Import ZArith QArith Lia Ascii.
From Stdlib Require SpecFloat.

Close Scope Q_scope.

(** ** Python values *)

(** Collaborators whose exceptions may travel through the service. *)
Inductive collaborator :=
| ModelManager | VoiceManager | AudioService | TextProcessor | Torch.

(** Instances of [Exception].  The first four are raised by the service (or by
    the interpreter on its behalf); [CollabError] is an exception that a
    collaborator raised, with its message.  The collaborators of [env] raise
    nothing else; signals outside [Exception] (task cancellation, interpreter
    exit) are raised by the collaborators of [Interruptible.env], with which
    the chunk synthesizer is embedded a second time. *)
Inductive exn :=
| RuntimeError (msg : string)
| ValueError (msg : string)
| TypeError (msg : string)
| AttributeError (msg : string)
| CollabError (who : collaborator) (msg : string).

(** [str(e)] *)
Definition str_exn (e : exn) : string :=
  match e with
  | RuntimeError m | ValueError m | TypeError m | AttributeError m => m
  | CollabError _ m => m
  end.

Inductive result (A : Type) :=
| Ok (a : A)
| Raise (e : exn).
Arguments Ok {A} a.
Arguments Raise {A} e.

(** What a call to a collaborator comes back with: a value, or an exception
    of the collaborator's own, given by its message. *)
Inductive answer (A : Type) :=
| Returns (a : A)
| Fails (msg : string).
Arguments Returns {A} a.
Arguments Fails {A} msg.

(** A call to the collaborator [who], as the service sees it. *)
Definition call {A : Type} (who : collaborator) (r : answer A) : result A :=
  match r with
  | Returns a => Ok a
  | Fails m => Raise (CollabError who m)
  end.

(** The exception that ends the iteration of a collaborator's generator. *)
Definition stopped (who : collaborator) (stop : option string) : option exn :=
  option_map (CollabError who) stop.

(** The float32 operations used on voice embeddings, and the sample [0.0]. *)
Class FloatOps (F : Type) := {
  f0 : F;
  fadd : F -> F -> F;
  fdiv_nat : F -> nat -> F
}.

(** ** Strings: the [str] methods the voice resolver uses *)

Module PyStr.

(** The string with the given bytes. *)
Definition utf8 (bytes : list nat) : string :=
  fold_right (fun n s => String (ascii_of_nat n) s) EmptyString bytes.

(** The code points [c] for which [c.isspace()] holds, each as its UTF-8
    encoding: U+0009 to U+000D, U+001C to U+0020, U+0085, U+00A0, U+1680,
    U+2000 to U+200A, U+2028, U+2029, U+202F, U+205F and U+3000. *)
Definition whitespace : list string :=
  map utf8
    [[9]; [10]; [11]; [12]; [13]; [28]; [29]; [30]; [31]; [32];
     [194; 133]; [194; 160]; [225; 154; 128];
     [226; 128; 128]; [226; 128; 129]; [226; 128; 130]; [226; 128; 131];
     [226; 128; 132]; [226; 128; 133]; [226; 128; 134]; [226; 128; 135];
     [226; 128; 136]; [226; 128; 137]; [226; 128; 138];
     [226; 128; 168]; [226; 128; 169]; [226; 128; 175];
     [226; 129; 159]; [227; 128; 128]].

(** [c in s] for a one-character [c]. *)
Fixpoint contains (c : ascii) (s : string) : bool :=
  match s with
  | EmptyString => false
  | String d s' => if Ascii.eqb d c then true else contains c s'
  end.

(** [s.split(c)] for a one-character separator. *)
Fixpoint split (c : ascii) (s : string) : list string :=
  match s with
  | EmptyString => [EmptyString]
  | String d s' =>
      if Ascii.eqb d c then EmptyString :: split c s'
      else match split c s' with
           | [] => [String d EmptyString]
           | w :: ws => String d w :: ws
           end
  end.

(** [s] without its prefix [p], when it has that prefix. *)
Fixpoint drop_prefix (p s : string) : option string :=
  match p with
  | EmptyString => Some s
  | String a p' =>
      match s with
      | String b s' => if Ascii.eqb a b then drop_prefix p' s' else None
      | EmptyString => None
      end
  end.

(** [s] without one of the prefixes [ps], the first that fits. *)
Fixpoint drop_one (ps : list string) (s : string) : option string :=
  match ps with
  | [] => None
  | p :: ps' =>
      match drop_prefix p s with
      | Some r => Some r
      | None => drop_one ps' s
      end
  end.

(** [s] without its leading run of the strings [ps]; [fuel] bounds the run. *)
Fixpoint drop_run (ps : list string) (fuel : nat) (s : string) : string :=
  match fuel with
  | O => s
  | S k =>
      match drop_one ps s with
      | Some r => drop_run ps k r
      | None => s
      end
  end.

Fixpoint rev_onto (s acc : string) : string :=
  match s with
  | EmptyString => acc
  | String c s' => rev_onto s' (String c acc)
  end.

(** The bytes of [s] in reverse order. *)
Definition reverse (s : string) : string := rev_onto s EmptyString.

(** [s.lstrip()] *)
Definition lstrip (s : string) : string :=
  drop_run whitespace (String.length s) s.

(** [s.rstrip()] *)
Definition rstrip (s : string) : string :=
  reverse (drop_run (map reverse whitespace) (String.length s) (reverse s)).

(** [s.strip()] *)
Definition strip (s : string) : string := rstrip (lstrip s).

(** Truth value of a [str]. *)
Definition truthy (s : string) : bool :=
  match s with EmptyString => false | _ => true end.

(** A byte that continues the encoding of a code point. *)
Definition is_continuation (c : ascii) : bool :=
  ((128 <=? nat_of_ascii c) && (nat_of_ascii c <? 192))%nat.

(** [s[:n]]: the first [n] code points. *)
Fixpoint prefix (n : nat) (s : string) : string :=
  match s with
  | EmptyString => EmptyString
  | String c s' =>
      if is_continuation c then String c (prefix n s')
      else match n with
           | O => EmptyString
           | S k => String c (prefix k s')
           end
  end.

(** [os.path.join(a, b)] on a POSIX system. *)
Definition path_join (a b : string) : string :=
  match b with
  | String "/" _ => b
  | _ =>
      match a with
      | EmptyString => b
      | _ => if String.eqb (String.substring (String.length a - 1) 1 a) "/"
             then a +:+ b else a +:+ "/" +:+ b
      end
  end.

End PyStr.

Section Service.

Context {F : Type} `{FloatOps F}.
Context {nstate : Type}.

(** ** Arrays, tensors, payloads *)

(** A float32 [np.ndarray] of audio: zero-dimensional or one-dimensional. *)
Inductive ndarray :=
| Scalar (x : F)
| Vec (xs : list F).

(** A voice embedding: a shape and its elements in row-major order. *)
Record tensor := Tensor { shape : list nat; data : list F }.

(** The bytes returned by one [convert_audio] call.  [enc_first] and
    [enc_last] record the framing flags of that call; the Python value is
    [payload] alone. *)
Record encoded := Encoded {
  payload : list Byte.byte;
  enc_first : bool;
  enc_last : bool
}.

(** What flows through the generators. *)
Inductive value :=
| VNone
| VArray (a : ndarray)
| VBytes (b : encoded).

Inductive backend :=
| KokoroV1
| Legacy (device : string).

(** ** Collaborators *)

Record env := Env {
  (** [model_manager.get_backend()] *)
  get_backend : answer backend;
  (** [model_manager.generate(text, (voice_name, voice_path), speed=...)] on
      the text-native backend: the values it yields, and the exception that
      ends the iteration, if any. *)
  generate_stream : string -> string * string -> F ->
                    list (option ndarray) * option string;
  (** [model_manager.generate(tokens, voice_tensor, speed=...)] on a legacy
      backend. *)
  generate_tokens : list Z -> tensor -> F -> answer (option ndarray);
  (** [voice_manager.get_voice_path(name)] *)
  get_voice_path : string -> answer (option string);
  (** [voice_manager.load_voice(name, device=...)] *)
  load_voice : string -> string -> answer tensor;
  (** [AudioService.convert_audio(audio, rate, format, is_first_chunk=...,
      normalizer=..., is_last_chunk=...)]; the normalizer is updated in
      place. *)
  convert_audio : option ndarray -> Z -> string -> bool -> bool -> nstate ->
                  answer (option (list Byte.byte)) * nstate;
  (** [AudioNormalizer()] *)
  new_normalizer : nstate;
  (** [smart_split(text)]: the segments it yields, and the exception that ends
      the iteration, if any. *)
  smart_split : string -> list (string * list Z) * option string;
  (** [tempfile.gettempdir()] *)
  gettempdir : string;
  (** whether [torch.save] can write to a path *)
  writable : string -> bool
}.

(** ** Effects *)

Inductive level := DEBUG | WARNING | ERROR.

(** Arguments of one [_process_chunk] call (the normalizer apart). *)
Record chunk_call := ChunkCall {
  cc_text : string;
  cc_tokens : list Z;
  cc_voice_name : string;
  cc_voice_path : string;
  cc_speed : F;
  cc_format : option string;
  cc_is_first : bool;
  cc_is_last : bool
}.

(** What a run of the service does, in order. *)
Inductive event :=
| Invoke (c : chunk_call)     (* [_process_chunk] is called *)
| Acquire                     (* a permit of [_chunk_semaphore] is taken *)
| Release                     (* and given back *)
| Yield (v : value)           (* a generator yields *)
| Log (lvl : level) (msg : string).

(** The values yielded in a run. *)
Definition yielded (evs : list event) : list value :=
  omap (fun e => match e with Yield v => Some v | _ => None end) evs.

(** The [_process_chunk] calls of a run. *)
Definition invocations (evs : list event) : list chunk_call :=
  omap (fun e => match e with Invoke c => Some c | _ => None end) evs.

(** ** Voice resolver *)

(** [torch.load(path, map_location="cpu")] *)
Definition torch_load (fs : gmap string tensor) (path : string) : result tensor :=
  match fs !! path with
  | Some t => Ok t
  | None => Raise (CollabError Torch ("No such file or directory: " +:+ path))
  end.

(** [torch.save(t, path)] *)
Definition torch_save (E : env) (t : tensor) (path : string) (fs : gmap string tensor)
  : result unit * gmap string tensor :=
  if writable E path then (Ok tt, <[path := t]> fs)
  else (Raise (CollabError Torch ("Cannot write: " +:+ path)), fs).

(** [torch.stack(ts)]: the tensors side by side, all of one shape. *)
Definition torch_stack (ts : list tensor) : result (list nat * list (list F)) :=
  match ts with
  | [] => Raise (CollabError Torch "stack expects a non-empty TensorList")
  | t :: rest =>
      if forallb (fun u => bool_decide (shape u = shape t)) rest
      then Ok (shape t, map data ts)
      else Raise (CollabError Torch "stack expects each tensor to be equal size")
  end.

(** Sum of the rows of a stack, column by column, first row first. *)
Definition sum_rows (rows : list (list F)) : list F :=
  match rows with
  | [] => []
  | r :: rest => fold_left (zip_with fadd) rest r
  end.

(** [torch.mean(stacked, dim=0)] *)
Definition torch_mean0 (stacked : list nat * list (list F)) : tensor :=
  let '(sh, rows) := stacked in
  Tensor sh (map (fun x => fdiv_nat x (length rows)) (sum_rows rows)).

(** The element-wise arithmetic mean of embeddings, as the specification words
    it: element [i] of the mean is the sum of the elements [i] divided by the
    number of embeddings.  It is there where every embedding has an element
    [i]. *)
Definition elementwise_mean (ts : list tensor) (i : nat) : option F :=
  match ts with
  | [] => None
  | t :: rest =>
      x ← data t !! i;
      xs ← mapM (fun u => data u !! i) rest;
      Some (fdiv_nat (fold_left fadd xs x) (length ts))
  end.

(** [[v.strip() for v in voice.split("+") if v.strip()]] *)
Definition combined_names (voice : string) : list string :=
  map PyStr.strip
      (List.filter (fun v => PyStr.truthy (PyStr.strip v)) (PyStr.split "+" voice)).

(** Truth value of what [get_voice_path] returned: [None] and the empty path
    both count as absent. *)
Definition found_path (p : option string) : option string :=
  match p with
  | Some q => if PyStr.truthy q then Some q else None
  | None => None
  end.

(** The two errors of the resolver: both are [RuntimeError]s, told apart by
    their message. *)
Definition InvalidVoiceSpec (voice : string) : exn :=
  RuntimeError ("Invalid combined voice name: " +:+ voice).

Definition VoiceNotFound (name : string) : exn :=
  RuntimeError ("Voice not found: " +:+ name).

(** The loop that loads the voices of a combination, in order. *)
Fixpoint load_voices (E : env) (fs : gmap string tensor) (voices : list string)
  : result (list tensor) * list event :=
  match voices with
  | [] => (Ok [], [])
  | v :: rest =>
      match call VoiceManager (get_voice_path E v) with
      | Raise e => (Raise e, [])
      | Ok p =>
          match found_path p with
          | None => (Raise (VoiceNotFound v), [])
          | Some path =>
              let lg := Log DEBUG ("Loading voice tensor from: " +:+ path) in
              match torch_load fs path with
              | Raise e => (Raise e, [lg])
              | Ok t =>
                  match load_voices E fs rest with
                  | (Ok ts, evs) => (Ok (t :: ts), lg :: evs)
                  | (Raise e, evs) => (Raise e, lg :: evs)
                  end
              end
          end
      end
  end.

(** Where a combined voice is saved. *)
Definition combined_path (E : env) (voice : string) : string :=
  PyStr.path_join (gettempdir E) (voice +:+ ".pt").

(** The body of the [try] of [_get_voice_path]. *)
Definition get_voice_path_body (E : env) (voice : string) (fs : gmap string tensor)
  : result (string * string) * list event * gmap string tensor :=
  if PyStr.contains "+" voice then
    let voices := combined_names voice in
    if (length voices <? 2)%nat then
      (Raise (InvalidVoiceSpec voice), [], fs)
    else
      match load_voices E fs voices with
      | (Raise e, evs) => (Raise e, evs, fs)
      | (Ok voice_tensors, evs) =>
          let lg1 := Log DEBUG ("Combining " +:+ pretty (length voice_tensors)
                                +:+ " voice tensors") in
          match torch_stack voice_tensors with
          | Raise e => (Raise e, evs ++ [lg1], fs)
          | Ok stacked =>
              let combined := torch_mean0 stacked in
              let path := combined_path E voice in
              let lg2 := Log DEBUG ("Saving combined voice to: " +:+ path) in
              match torch_save E combined path fs with
              | (Raise e, fs') => (Raise e, evs ++ [lg1; lg2], fs')
              | (Ok _, fs') => (Ok (voice, path), evs ++ [lg1; lg2], fs')
              end
          end
      end
  else
    match call VoiceManager (get_voice_path E voice) with
    | Raise e => (Raise e, [], fs)
    | Ok p =>
        match found_path p with
        | None => (Raise (VoiceNotFound voice), [], fs)
        | Some path =>
            (Ok (voice, path), [Log DEBUG ("Using single voice path: " +:+ path)], fs)
        end
    end.

(** [TTSService._get_voice_path]: the body, and the handler that logs and
    re-raises. *)
Definition _get_voice_path (E : env) (voice : string) (fs : gmap string tensor)
  : result (string * string) * list event * gmap string tensor :=
  match get_voice_path_body E voice fs with
  | (Raise e, evs, fs') =>
      (Raise e, evs ++ [Log ERROR ("Failed to get voice path: " +:+ str_exn e)], fs')
  | (Ok r, evs, fs') => (Ok r, evs, fs')
  end.

(** ** Chunk synthesizer *)

(** Truth value of [output_format]: the format to encode to, if any. *)
Definition format_of (output_format : option string) : option string :=
  match output_format with
  | Some f => if PyStr.truthy f then Some f else None
  | None => None
  end.

(** What [convert_audio] returned, as a value. *)
Definition as_value (b : option (list Byte.byte)) (is_first is_last : bool) : value :=
  match b with
  | Some bs => VBytes (Encoded bs is_first is_last)
  | None => VNone
  end.

(** [len(a)] *)
Definition len (a : ndarray) : result nat :=
  match a with
  | Vec xs => Ok (length xs)
  | Scalar _ => Raise (TypeError "len() of unsized object")
  end.

(** One raw chunk on its way out: encoded when a format is set (an encoding
    failure is logged and the chunk dropped), yielded as it is otherwise. *)
Definition emit_chunk (E : env) (chunk_audio : option ndarray)
    (output_format : option string) (is_first is_last : bool) (ns : nstate)
  : list event * nstate :=
  match format_of output_format with
  | Some f =>
      let '(r, ns') := convert_audio E chunk_audio 24000 f is_first is_last ns in
      match call AudioService r with
      | Ok b => ([Yield (as_value b is_first is_last)], ns')
      | Raise e => ([Log ERROR ("Failed to convert audio: " +:+ str_exn e)], ns')
      end
  | None =>
      ([Yield (match chunk_audio with Some a => VArray a | None => VNone end)], ns)
  end.

(** The [async for] over the text-native backend's chunks. *)
Fixpoint emit_chunks (E : env) (chunks : list (option ndarray))
    (output_format : option string) (is_first is_last : bool) (ns : nstate)
  : list event * nstate :=
  match chunks with
  | [] => ([], ns)
  | c :: rest =>
      let '(evs1, ns1) := emit_chunk E c output_format is_first is_last ns in
      let '(evs2, ns2) := emit_chunks E rest output_format is_first is_last ns1 in
      (evs1 ++ evs2, ns2)
  end.

(** The body of the [try] of [_process_chunk]: what it does, the exception
    that ends it (if any), and the normalizer afterwards. *)
Definition process_chunk_body (E : env) (c : chunk_call) (ns : nstate)
  : list event * option exn * nstate :=
  if cc_is_last c then
    match format_of (cc_format c) with
    | None => ([Yield (VArray (Vec []))], None, ns)
    | Some f =>
        let '(r, ns') := convert_audio E (Some (Vec [f0])) 24000 f false true ns in
        match call AudioService r with
        | Ok b => ([Yield (as_value b false true)], None, ns')
        | Raise e => ([], Some e, ns')
        end
    end
  else if bool_decide (cc_tokens c = []) && negb (PyStr.truthy (cc_text c)) then
    ([], None, ns)
  else
    match call ModelManager (get_backend E) with
    | Raise e => ([], Some e, ns)
    | Ok KokoroV1 =>
        let '(chunks, stop) :=
          generate_stream E (cc_text c) (cc_voice_name c, cc_voice_path c) (cc_speed c) in
        let '(evs, ns') :=
          emit_chunks E chunks (cc_format c) (cc_is_first c) (cc_is_last c) ns in
        (evs, stopped ModelManager stop, ns')
    | Ok (Legacy device) =>
        match call VoiceManager (load_voice E (cc_voice_name c) device) with
        | Raise e => ([], Some e, ns)
        | Ok voice_tensor =>
            match call ModelManager
                    (generate_tokens E (cc_tokens c) voice_tensor (cc_speed c)) with
            | Raise e => ([], Some e, ns)
            | Ok None =>
                ([Log ERROR "Model generated None for audio chunk"], None, ns)
            | Ok (Some chunk_audio) =>
                match len chunk_audio with
                | Raise e => ([], Some e, ns)
                | Ok O => ([Log ERROR "Model generated empty audio chunk"], None, ns)
                | Ok (S _) =>
                    let '(evs, ns') :=
                      emit_chunk E (Some chunk_audio) (cc_format c)
                                 (cc_is_first c) (cc_is_last c) ns in
                    (evs, None, ns')
                end
            end
        end
    end.

(** [except Exception as e: logger.error(...)]: the exception is logged and
    goes no further. *)
Definition contain (prefix : string) (stop : option exn) : list event * option exn :=
  match stop with
  | Some e => ([Log ERROR (prefix +:+ str_exn e)], None)
  | None => ([], None)
  end.

(** [TTSService._process_chunk], run to exhaustion: the permit is held around
    the [try]. *)
Definition _process_chunk (E : env) (c : chunk_call) (ns : nstate)
  : list event * option exn * nstate :=
  let '(evs, stop, ns') := process_chunk_body E c ns in
  let '(handled, stop') := contain "Failed to process tokens: " stop in
  (Invoke c :: Acquire :: evs ++ handled ++ [Release], stop', ns').

(** ** Stream orchestrator *)

Definition is_none (v : value) : bool :=
  match v with VNone => true | _ => false end.

(** The loop body over the results of one segment's [_process_chunk]: a result
    that is not [None] is yielded on and counted, [None] is logged. *)
Fixpoint relay_segment (chunk_text : string) (evs : list event) (chunk_index : nat)
  : list event * nat :=
  match evs with
  | [] => ([], chunk_index)
  | Yield v :: rest =>
      if is_none v then
        let '(out, n) := relay_segment chunk_text rest chunk_index in
        (Log WARNING ("No audio generated for chunk: '"
                      +:+ PyStr.prefix 100 chunk_text +:+ "...'") :: out, n)
      else
        let '(out, n) := relay_segment chunk_text rest (S chunk_index) in
        (Yield v :: out, n)
  | e :: rest =>
      let '(out, n) := relay_segment chunk_text rest chunk_index in
      (e :: out, n)
  end.

(** The loop body over the results of the finalization call. *)
Definition relay_final (evs : list event) : list event :=
  List.filter (fun e => match e with Yield v => negb (is_none v) | _ => true end) evs.

(** The [async for] over the segments. *)
Fixpoint stream_segments (E : env) (segments : list (string * list Z))
    (voice_name voice_path : string) (speed : F) (output_format : option string)
    (chunk_index : nat) (ns : nstate) : list event * nat * nstate :=
  match segments with
  | [] => ([], chunk_index, ns)
  | (chunk_text, tokens) :: rest =>
      let c := ChunkCall chunk_text tokens voice_name voice_path speed output_format
                         (chunk_index =? 0)%nat false in
      let '(evs, stop, ns1) := _process_chunk E c ns in
      let '(out, n1) := relay_segment chunk_text evs chunk_index in
      let '(handled, _) :=
        contain ("Failed to process audio for chunk: '"
                 +:+ PyStr.prefix 100 chunk_text +:+ "...'. Error: ") stop in
      let '(out', n2, ns2) :=
        stream_segments E rest voice_name voice_path speed output_format n1 ns1 in
      (out ++ handled ++ out', n2, ns2)
  end.

(** The finalization call. *)
Definition final_call (voice_name voice_path : string) (speed : F)
    (output_format : option string) : chunk_call :=
  ChunkCall "" [] voice_name voice_path speed output_format false true.

(** The finalization step: taken only when a chunk was emitted. *)
Definition finalize (E : env) (voice_name voice_path : string) (speed : F)
    (output_format : option string) (chunk_index : nat) (ns : nstate)
  : list event * nstate :=
  if (0 <? chunk_index)%nat then
    let '(evs, stop, ns') :=
      _process_chunk E (final_call voice_name voice_path speed output_format) ns in
    let '(handled, _) := contain "Failed to finalize audio stream: " stop in
    (relay_final evs ++ handled, ns')
  else ([], ns).

(** A run of a generator of the service. *)
Record run := Run {
  events : list event;               (* what happened, in order *)
  outcome : option exn;              (* the exception it ended with, if any *)
  files : gmap string tensor         (* the files afterwards *)
}.

(** The handler of the outer [try]: log and re-raise. *)
Definition reraise (prefix : string) (evs : list event) (e : exn)
    (fs : gmap string tensor) : run :=
  Run (evs ++ [Log ERROR (prefix +:+ str_exn e)]) (Some e) fs.

(** [TTSService.generate_audio_stream], consumed to exhaustion. *)
Definition generate_audio_stream (E : env) (text voice : string) (speed : F)
    (output_format : option string) (fs : gmap string tensor) : run :=
  let stream_normalizer := new_normalizer E in
  let failed := reraise "Error in phoneme audio generation: " in
  match call ModelManager (get_backend E) with
  | Raise e => failed [] e fs
  | Ok _ =>
      match _get_voice_path E voice fs with
      | (Raise e, evs0, fs') => failed evs0 e fs'
      | (Ok (voice_name, voice_path), evs0, fs') =>
          let evs1 := evs0 ++ [Log DEBUG ("Using voice path: " +:+ voice_path)] in
          let '(segments, stop) := smart_split E text in
          let '(evs2, chunk_index, ns) :=
            stream_segments E segments voice_name voice_path speed output_format
                            0 stream_normalizer in
          match stopped TextProcessor stop with
          | Some e => failed (evs1 ++ evs2) e fs'
          | None =>
              let '(evs3, _) :=
                finalize E voice_name voice_path speed output_format chunk_index ns in
              Run (evs1 ++ evs2 ++ evs3) None fs'
          end
      end
  end.

(** ** Aggregate synthesizer *)

(** [c.ndim] *)
Definition ndim (v : value) : result nat :=
  match v with
  | VArray (Scalar _) => Ok 0
  | VArray (Vec _) => Ok 1
  | VBytes _ => Raise (AttributeError "'bytes' object has no attribute 'ndim'")
  | VNone => Raise (AttributeError "'NoneType' object has no attribute 'ndim'")
  end.

(** [[c for c in chunks if c.ndim > 0]] *)
Fixpoint valid_chunks (chunks : list value) : result (list value) :=
  match chunks with
  | [] => Ok []
  | c :: rest =>
      match ndim c with
      | Raise e => Raise e
      | Ok d =>
          match valid_chunks rest with
          | Raise e => Raise e
          | Ok vs => Ok (if (0 <? d)%nat then c :: vs else vs)
          end
      end
  end.

(** The samples of a one-dimensional array. *)
Definition samples (v : value) : list F :=
  match v with
  | VArray (Vec xs) => xs
  | _ => []
  end.

(** [np.concatenate(vs)] of one-dimensional arrays. *)
Definition np_concatenate (vs : list value) : value :=
  VArray (Vec (concat (map samples vs))).

(** The body of the [try] of [generate_audio], after the stream has been
    collected. *)
Definition combine_chunks (chunks : list value) : result value :=
  match chunks with
  | [] => Raise (ValueError "No audio chunks were generated successfully")
  | [c] => Ok c
  | _ =>
      match valid_chunks chunks with
      | Raise e => Raise e
      | Ok [] => Raise (ValueError "No valid audio chunks to concatenate")
      | Ok vs => Ok (np_concatenate vs)
      end
  end.

(** The format [generate_audio_stream] runs with when none is passed. *)
Definition default_output_format : option string := Some "wav".

(** [TTSService.generate_audio]: the audio it returns or the exception it
    raises, its log, and the files afterwards.  The elapsed time it returns
    next to the audio is a reading of the clock and is left out. *)
Definition generate_audio (E : env) (text voice : string) (speed : F)
    (fs : gmap string tensor) : result value * list event * gmap string tensor :=
  let r := generate_audio_stream E text voice speed default_output_format fs in
  let chunks := List.filter (fun v => negb (is_none v)) (yielded (events r)) in
  let res :=
    match outcome r with
    | Some e => Raise e
    | None => combine_chunks chunks
    end in
  match res with
  | Raise e =>
      (Raise e, events r ++ [Log ERROR ("Error in audio generation: " +:+ str_exn e)],
       files r)
  | Ok audio => (Ok audio, events r, files r)
  end.

(** ** Observations on a stream *)

(** A unit that was encoded with [is_first_chunk=True]. *)
Definition first_flag (v : value) : bool :=
  match v with VBytes b => enc_first b | _ => false end.

(** A unit that was encoded with [is_last_chunk=True]. *)
Definition last_flag (v : value) : bool :=
  match v with VBytes b => enc_last b | _ => false end.

(** An encoded payload, as opposed to an array of samples or [None]. *)
Definition is_bytes (v : value) : bool :=
  match v with VBytes _ => true | _ => false end.

(** The units a consumer of the stream receives from one [_process_chunk]
    call: what the call yields, [None] left out. *)
Definition call_units (E : env) (c : chunk_call) (ns : nstate) : list value :=
  List.filter (fun v => negb (is_none v)) (yielded (fst (fst (_process_chunk E c ns)))).

(** An event of the body of a call: a yield or a log entry. *)
Definition quiet (e : event) : Prop :=
  match e with Yield _ | Log _ _ => True | _ => False end.

(** How a value yielded by a call made with the given format and flags is
    made: an array only when no format is set, a payload only when one is, and
    then framed with the flags of the call. *)
Definition framed_as (output_format : option string) (is_first is_last : bool)
    (v : value) : Prop :=
  match v with
  | VNone => True
  | VArray _ => format_of output_format = None
  | VBytes b =>
      format_of output_format <> None /\ enc_first b = is_first /\ enc_last b = is_last
  end.

(** Exactly one unit framed as first and exactly one framed as last, the
    last one closing the stream. *)
Definition one_first_one_last (units : list value) : Prop :=
  length (List.filter first_flag units) = 1 /\
  length (List.filter last_flag units) = 1 /\
  last_flag <$> last units = Some true.

(** ** The stream, as the specification words it *)









(** ** The chunk limiter *)

(** [_chunk_semaphore = asyncio.Semaphore(4)]: one semaphore for the class,
    hence for every request of the process. *)
Definition _chunk_semaphore : nat := 4.

(** A [_process_chunk] call in flight: the permits it holds and what it has
    still to do. *)
Record task := Task { held : nat; todo : list event }.

(** The semaphore and the calls in flight. *)
Record pool := Pool { permits : nat; tasks : list task }.

(** One step of one call, against the number of free permits.  Taking a permit
    needs a free one (the call waits otherwise); leaving the [async with]
    gives it back.  [ts_close] is the consumer abandoning the generator: it is
    closed where it stands, and leaving the [async with] gives back what is
    held. *)
Inductive task_step : nat -> task -> nat -> task -> Prop :=
| ts_invoke p h c r : task_step p (Task h (Invoke c :: r)) p (Task h r)
| ts_acquire p h r : task_step (S p) (Task h (Acquire :: r)) p (Task (S h) r)
| ts_release p h r : task_step p (Task (S h) (Release :: r)) (S p) (Task h r)
| ts_yield p h v r : task_step p (Task h (Yield v :: r)) p (Task h r)
| ts_log p h l m r : task_step p (Task h (Log l m :: r)) p (Task h r)
| ts_close p h r : task_step p (Task h r) (p + h) (Task 0 []).

(** The event loop runs one call at a time, in any order. *)
Inductive pool_step : pool -> pool -> Prop :=
| pool_step_at i t p' t' s :
    tasks s !! i = Some t ->
    task_step (permits s) t p' t' ->
    pool_step s (Pool p' (<[i := t']> (tasks s))).

(** Any number of calls, of any requests, none started. *)
Definition pool_init (calls : list (env * chunk_call * nstate)) : pool :=
  Pool _chunk_semaphore
       (map (fun '(E, c, ns) => Task 0 (fst (fst (_process_chunk E c ns)))) calls).

(** The discipline of [async with] on what a call has still to do when it
    holds [h] permits: a permit is taken only when none is held, given back
    only when one is held, and none is held at the end. *)
Fixpoint permit_discipline (h : nat) (todo : list event) : Prop :=
  match todo with
  | [] => h = 0
  | Acquire :: r => h = 0 /\ permit_discipline 1 r
  | Release :: r => h = 1 /\ permit_discipline 0 r
  | _ :: r => permit_discipline h r
  end.

(** What the semaphore keeps true: every call follows the discipline, and the
    free permits and the held ones make up its capacity. *)
Definition pool_ok (s : pool) : Prop :=
  Forall (fun t => permit_discipline (held t) (todo t)) (tasks s) /\
  permits s + sum_list (map held (tasks s)) = _chunk_semaphore.

(** The calls that are executing: inside the [async with]. *)
Definition executing (s : pool) : nat :=
  length (List.filter (fun t => (0 <? held t)%nat) (tasks s)).

(** The scope of [async with] on what a call has still to do when it holds
    [h] permits: the call takes its permit before anything else, whatever it
    yields or logs it does holding the permit, and giving the permit back is
    the last thing it does. *)
Fixpoint under_permit (h : nat) (todo : list event) : Prop :=
  match todo with
  | [] => h = 0
  | Invoke _ :: r => h = 0 /\ under_permit 0 r
  | Acquire :: r => h = 0 /\ under_permit 1 r
  | Release :: r => h = 1 /\ r = []
  | Yield _ :: r | Log _ _ :: r => h = 1 /\ under_permit 1 r
  end.

(** A call that is in its body: what it does next (yield, log, leave the
    [async with]) comes after the permit was taken. *)
Definition in_body (t : task) : bool :=
  match todo t with
  | Yield _ :: _ | Log _ _ :: _ | Release :: _ => true
  | _ => false
  end.

(** The calls whose body is running. *)
Definition running (s : pool) : nat := length (List.filter in_body (tasks s)).

(** ** Further observations *)

(** A segment that the loop passes over without audio and without touching
    the encoder: an empty one (no text, no tokens), or one for which the
    legacy model returns [None] or an array of length zero. *)
Definition passed_over (E : env) (seg : string * list Z) (voice_name : string)
    (speed : F) : Prop :=
  (seg.1 = "" /\ seg.2 = []) \/
  exists device voice_tensor,
    get_backend E = Returns (Legacy device) /\
    load_voice E voice_name device = Returns voice_tensor /\
    (generate_tokens E seg.2 voice_tensor speed = Returns None \/
     generate_tokens E seg.2 voice_tensor speed = Returns (Some (Vec []))).

(** The log entry of a chunk whose encoding failed. *)
Definition is_convert_failure (e : event) : bool :=
  match e with
  | Log ERROR m => String.prefix "Failed to convert audio: " m
  | _ => false
  end.

(** An array of samples. *)
Definition is_array (v : value) : bool :=
  match v with VArray _ => true | _ => false end.

(** In a run that starts when [n] units have been emitted, a call is made
    with [is_first=True] exactly when no unit has been emitted before it. *)
Definition first_iff_fresh (n : nat) (evs : list event) : Prop :=
  forall pre c post,
    evs = pre ++ Invoke c :: post ->
    (cc_is_first c = true <-> n + length (yielded pre) = 0).

(** The same service with another encoder and another fresh normalizer. *)
Definition with_encoder (E : env)
    (conv : option ndarray -> Z -> string -> bool -> bool -> nstate ->
            answer (option (list Byte.byte)) * nstate)
    (fresh : nstate) : env :=
  {| get_backend := get_backend E;
     generate_stream := generate_stream E;
     generate_tokens := generate_tokens E;
     get_voice_path := get_voice_path E;
     load_voice := load_voice E;
     convert_audio := conv;
     new_normalizer := fresh;
     smart_split := smart_split E;
     gettempdir := gettempdir E;
     writable := writable E |}.

End Service.

Arguments env : clear implicits.
Arguments ndarray : clear implicits.
Arguments tensor : clear implicits.
Arguments value : clear implicits.
Arguments chunk_call : clear implicits.
Arguments event : clear implicits.
Arguments run : clear implicits.
Arguments task : clear implicits.
Arguments pool : clear implicits.

(** * Signals outside [Exception]

    [asyncio.CancelledError], [KeyboardInterrupt] and [SystemExit] derive from
    [BaseException] and not from [Exception]: a handler [except Exception]
    lets them through.  In the service above a collaborator returns or raises
    an instance of [Exception].  Here the chunk synthesizer is taken up again
    with collaborators that may also be interrupted by such a signal, as an
    awaited call is when its task is cancelled. *)

Module Interruptible.

Inductive signal := CancelledError | KeyboardInterrupt | SystemExit.

(** What is raised: an instance of [Exception], or a signal. *)
Inductive raised :=
| Exc (e : exn)
| Sig (s : signal).

(** What a call to a collaborator comes back with: a value, an [Exception] of
    the collaborator's own, given by its message, or a signal. *)
Inductive reply (A : Type) :=
| Gives (a : A)
| Throws (msg : string)
| Breaks (s : signal).
Arguments Gives {A} a.
Arguments Throws {A} msg.
Arguments Breaks {A} s.

(** A call to the collaborator [who], as the service sees it. *)
Definition call {A : Type} (who : collaborator) (r : reply A) : A + raised :=
  match r with
  | Gives a => inl a
  | Throws m => inr (Exc (CollabError who m))
  | Breaks s => inr (Sig s)
  end.

(** What ends the iteration of a collaborator's generator. *)
Definition stopped (who : collaborator) (stop : reply unit) : option raised :=
  match call who stop with
  | inl _ => None
  | inr x => Some x
  end.

Section Interruptible.

Context {F : Type} `{FloatOps F}.
Context {nstate : Type}.

(** The collaborators of [_process_chunk]. *)
Record env := Env {
  (** [model_manager.get_backend()] *)
  get_backend : reply backend;
  (** [model_manager.generate(text, (voice_name, voice_path), speed=...)] on
      the text-native backend: the values it yields, and what ends the
      iteration. *)
  generate_stream : string -> string * string -> F ->
                    list (option (ndarray F)) * reply unit;
  (** [model_manager.generate(tokens, voice_tensor, speed=...)] on a legacy
      backend. *)
  generate_tokens : list Z -> tensor F -> F -> reply (option (ndarray F));
  (** [voice_manager.load_voice(name, device=...)] *)
  load_voice : string -> string -> reply (tensor F);
  (** [AudioService.convert_audio(...)]; the normalizer is updated in
      place. *)
  convert_audio : option (ndarray F) -> Z -> string -> bool -> bool -> nstate ->
                  reply (option (list Byte.byte)) * nstate
}.

(** [except Exception as e: logger.error(...)]: an instance of [Exception] is
    logged and goes no further; a signal is not caught. *)
Definition contain (prefix : string) (stop : option raised)
  : list (event F) * option raised :=
  match stop with
  | Some (Exc e) => ([Log ERROR (prefix +:+ str_exn e)], None)
  | Some (Sig s) => ([], Some (Sig s))
  | None => ([], None)
  end.

(** One raw chunk on its way out: encoded when a format is set, in a [try]
    of its own, yielded as it is otherwise. *)
Definition emit_chunk (E : env) (chunk_audio : option (ndarray F))
    (output_format : option string) (is_first is_last : bool) (ns : nstate)
  : list (event F) * option raised * nstate :=
  match format_of output_format with
  | Some f =>
      let '(r, ns') := convert_audio E chunk_audio 24000 f is_first is_last ns in
      match call AudioService r with
      | inl b => ([Yield (as_value b is_first is_last)], None, ns')
      | inr x =>
          let '(handled, stop) := contain "Failed to convert audio: " (Some x) in
          (handled, stop, ns')
      end
  | None =>
      ([Yield (match chunk_audio with Some a => VArray a | None => VNone end)], None, ns)
  end.

(** The [async for] over the text-native backend's chunks: a signal leaves
    the loop. *)
Fixpoint emit_chunks (E : env) (chunks : list (option (ndarray F)))
    (output_format : option string) (is_first is_last : bool) (ns : nstate)
  : list (event F) * option raised * nstate :=
  match chunks with
  | [] => ([], None, ns)
  | c :: rest =>
      match emit_chunk E c output_format is_first is_last ns with
      | (evs1, Some x, ns1) => (evs1, Some x, ns1)
      | (evs1, None, ns1) =>
          let '(evs2, stop, ns2) :=
            emit_chunks E rest output_format is_first is_last ns1 in
          (evs1 ++ evs2, stop, ns2)
      end
  end.

(** The body of the [try] of [_process_chunk]: what it does, what ends it (if
    anything is raised), and the normalizer afterwards. *)
Definition process_chunk_body (E : env) (c : chunk_call F) (ns : nstate)
  : list (event F) * option raised * nstate :=
  if cc_is_last c then
    match format_of (cc_format c) with
    | None => ([Yield (VArray (Vec []))], None, ns)
    | Some f =>
        let '(r, ns') := convert_audio E (Some (Vec [f0])) 24000 f false true ns in
        match call AudioService r with
        | inl b => ([Yield (as_value b false true)], None, ns')
        | inr x => ([], Some x, ns')
        end
    end
  else if bool_decide (cc_tokens c = []) && negb (PyStr.truthy (cc_text c)) then
    ([], None, ns)
  else
    match call ModelManager (get_backend E) with
    | inr x => ([], Some x, ns)
    | inl KokoroV1 =>
        let '(chunks, stop) :=
          generate_stream E (cc_text c) (cc_voice_name c, cc_voice_path c) (cc_speed c) in
        match emit_chunks E chunks (cc_format c) (cc_is_first c) (cc_is_last c) ns with
        | (evs, Some x, ns') => (evs, Some x, ns')
        | (evs, None, ns') => (evs, stopped ModelManager stop, ns')
        end
    | inl (Legacy device) =>
        match call VoiceManager (load_voice E (cc_voice_name c) device) with
        | inr x => ([], Some x, ns)
        | inl voice_tensor =>
            match call ModelManager
                    (generate_tokens E (cc_tokens c) voice_tensor (cc_speed c)) with
            | inr x => ([], Some x, ns)
            | inl None =>
                ([Log ERROR "Model generated None for audio chunk"], None, ns)
            | inl (Some chunk_audio) =>
                match len chunk_audio with
                | Raise e => ([], Some (Exc e), ns)
                | Ok O => ([Log ERROR "Model generated empty audio chunk"], None, ns)
                | Ok (S _) =>
                    emit_chunk E (Some chunk_audio) (cc_format c)
                               (cc_is_first c) (cc_is_last c) ns
                end
            end
        end
    end.

(** [TTSService._process_chunk], run to exhaustion: the permit is held around
    the [try], and given back however the [try] ends. *)
Definition _process_chunk (E : env) (c : chunk_call F) (ns : nstate)
  : list (event F) * option raised * nstate :=
  let '(evs, stop, ns') := process_chunk_body E c ns in
  let '(handled, stop') := contain "Failed to process tokens: " stop in
  (Invoke c :: Acquire :: evs ++ handled ++ [Release], stop', ns').


(** The log entry of the handler of [_process_chunk]. *)
Definition is_process_failure (e : event F) : bool :=
  match e with
  | Log ERROR m => String.prefix "Failed to process tokens: " m
  | _ => false
  end.

End Interruptible.

Arguments env : clear implicits.

End Interruptible.

(** ** Collaborators that are not interrupted *)

Section Uninterrupted.

Context {F : Type} `{FloatOps F}.
Context {nstate : Type}.

Definition as_reply {A : Type} (r : answer A) : Interruptible.reply A :=
  match r with
  | Returns a => Interruptible.Gives a
  | Fails m => Interruptible.Throws m
  end.

(** The collaborators of a service, as collaborators that no signal
    interrupts. *)
Definition uninterrupted (E : env F nstate) : Interruptible.env F nstate :=
  {| Interruptible.get_backend := as_reply (get_backend E);
     Interruptible.generate_stream := fun text voice speed =>
       let '(chunks, stop) := generate_stream E text voice speed in
       (chunks, match stop with
                | Some m => Interruptible.Throws m
                | None => Interruptible.Gives tt
                end);
     Interruptible.generate_tokens := fun tokens voice_tensor speed =>
       as_reply (generate_tokens E tokens voice_tensor speed);
     Interruptible.load_voice := fun name device => as_reply (load_voice E name device);
     Interruptible.convert_audio := fun a rate f is_first is_last ns =>
       let '(r, ns') := convert_audio E a rate f is_first is_last ns in
       (as_reply r, ns') |}.



End Uninterrupted.

(** ** Concrete services

    Small services on which the pipeline can be run: samples are rationals,
    the normalizer counts the [convert_audio] calls it has seen. *)

Module Scenario.

#[export] Instance rational_floats : FloatOps Q := {|
  f0 := 0%Q;
  fadd := Qplus;
  fdiv_nat := fun x n => Qdiv x (inject_Z (Z.of_nat n))
|}.

(** A segmenter that cuts at full stops and numbers the characters. *)
Definition sentences (text : string) : list (string * list Z) :=
  map (fun s => (s, map (fun c => Z.of_nat (nat_of_ascii c)) (String.list_ascii_of_string s)))
      (List.filter PyStr.truthy (PyStr.split "." text)).

(** Voices ["af"] and ["bf"] are installed. *)
Definition voice_files : gmap string (tensor Q) :=
  <["/voices/af.pt" := Tensor [2] [1%Q; 3%Q]]>
  (<["/voices/bf.pt" := Tensor [2] [3%Q; 5%Q]]> ∅).

Definition voice_paths (name : string) : answer (option string) :=
  if bool_decide (name = "af") then Returns (Some "/voices/af.pt")
  else if bool_decide (name = "bf") then Returns (Some "/voices/bf.pt")
  else Returns None.

(** One sample per token. *)
Definition tone (tokens : list Z) : ndarray Q := Vec (map inject_Z tokens).

(** An encoder that writes one byte per call. *)
Definition one_byte (a : option (ndarray Q)) (rate : Z) (fmt : string)
    (is_first is_last : bool) (n : nat)
  : answer (option (list Byte.byte)) * nat :=
  (Returns (Some [Byte.x2a]), S n).

(** A legacy backend where everything works. *)
Definition legacy_service : env Q nat := {|
  get_backend := Returns (Legacy "cpu");
  generate_stream := fun _ _ _ => ([], None);
  generate_tokens := fun tokens _ _ => Returns (Some (tone tokens));
  get_voice_path := voice_paths;
  load_voice := fun _ _ => Returns (Tensor [2] [1%Q; 3%Q]);
  convert_audio := one_byte;
  new_normalizer := 0%nat;
  smart_split := fun text => (sentences text, None);
  gettempdir := "/tmp";
  writable := fun _ => true
|}.

(** A text-native backend that streams two chunks per segment. *)
Definition kokoro_service : env Q nat := {|
  get_backend := Returns KokoroV1;
  generate_stream := fun _ _ _ => ([Some (Vec [1%Q]); Some (Vec [2%Q])], None);
  generate_tokens := fun _ _ _ => Returns None;
  get_voice_path := voice_paths;
  load_voice := fun _ _ => Returns (Tensor [2] [1%Q; 3%Q]);
  convert_audio := one_byte;
  new_normalizer := 0%nat;
  smart_split := fun text => (sentences text, None);
  gettempdir := "/tmp";
  writable := fun _ => true
|}.

(** A legacy backend whose encoder fails when asked to close the stream. *)
Definition no_trailer_service : env Q nat := {|
  get_backend := Returns (Legacy "cpu");
  generate_stream := fun _ _ _ => ([], None);
  generate_tokens := fun tokens _ _ => Returns (Some (tone tokens));
  get_voice_path := voice_paths;
  load_voice := fun _ _ => Returns (Tensor [2] [1%Q; 3%Q]);
  convert_audio := fun a rate fmt is_first is_last n =>
    if is_last then (Fails "cannot close", n)
    else one_byte a rate fmt is_first is_last n;
  new_normalizer := 0%nat;
  smart_split := fun text => (sentences text, None);
  gettempdir := "/tmp";
  writable := fun _ => true
|}.

(** A legacy backend whose model fails on the segment ["b"]. *)
Definition flaky_service : env Q nat := {|
  get_backend := Returns (Legacy "cpu");
  generate_stream := fun _ _ _ => ([], None);
  generate_tokens := fun tokens _ _ =>
    if bool_decide (tokens = [98%Z]) then Fails "out of memory"
    else Returns (Some (tone tokens));
  get_voice_path := voice_paths;
  load_voice := fun _ _ => Returns (Tensor [2] [1%Q; 3%Q]);
  convert_audio := one_byte;
  new_normalizer := 0%nat;
  smart_split := fun text => (sentences text, None);
  gettempdir := "/tmp";
  writable := fun _ => true
|}.


(** The two voices, as loaded. *)
Definition af_bf : list (tensor Q) := [Tensor [2] [1%Q; 3%Q]; Tensor [2] [3%Q; 5%Q]].

(** One chunk call of a request, and five requests making it at a time. *)
Definition a_call : env Q nat * chunk_call Q * nat :=
  (legacy_service,
   ChunkCall "a" [97%Z] "af" "/voices/af.pt" 1%Q (Some "wav") true false, 0%nat).

Definition five_calls : list (env Q nat * chunk_call Q * nat) := replicate 5 a_call.

(** A call that has entered its [async with]. *)
Definition entered (t : task Q) : task Q := Task 1 (drop 2 (todo t)).

(** Four of the five calls are inside, the fifth waits. *)
Definition four_inside : pool Q :=
  Pool 0 (map entered (take 4 (tasks (pool_init five_calls)))
          ++ drop 4 (tasks (pool_init five_calls))).

(** A legacy backend whose model has nothing to say on the segment ["b"]. *)
Definition silent_service : env Q nat := {|
  get_backend := Returns (Legacy "cpu");
  generate_stream := fun _ _ _ => ([], None);
  generate_tokens := fun tokens _ _ =>
    if bool_decide (tokens = [98%Z]) then Returns None
    else Returns (Some (tone tokens));
  get_voice_path := voice_paths;
  load_voice := fun _ _ => Returns (Tensor [2] [1%Q; 3%Q]);
  convert_audio := one_byte;
  new_normalizer := 0%nat;
  smart_split := fun text => (sentences text, None);
  gettempdir := "/tmp";
  writable := fun _ => true
|}.

(** A legacy backend whose segmenter raises after its last segment. *)
Definition broken_segmenter_service : env Q nat := {|
  get_backend := Returns (Legacy "cpu");
  generate_stream := fun _ _ _ => ([], None);
  generate_tokens := fun tokens _ _ => Returns (Some (tone tokens));
  get_voice_path := voice_paths;
  load_voice := fun _ _ => Returns (Tensor [2] [1%Q; 3%Q]);
  convert_audio := one_byte;
  new_normalizer := 0%nat;
  smart_split := fun text => (sentences text, Some "tokenizer crashed");
  gettempdir := "/tmp";
  writable := fun _ => true
|}.

(** An encoder that always fails. *)
Definition no_encoder (a : option (ndarray Q)) (rate : Z) (fmt : string)
    (is_first is_last : bool) (n : nat)
  : answer (option (list Byte.byte)) * nat :=
  (Fails "no codec", n).

(** All five calls are over and the permits are back. *)
Definition all_done : pool Q := Pool 4 (replicate 5 (Task 0 [])).

End Scenario.

(** ** IEEE-754 binary32

    The embeddings are float32 tensors.  [SpecFloat] has the addition and the
    division of IEEE-754, rounded to nearest even; binary32 has 24 bits of
    precision and infinities of exponent 128. *)

Module Float32.

Definition float32 : Type := SpecFloat.spec_float.

Definition of_Z (z : Z) : float32 := SpecFloat.binary_normalize 24 128 z 0 false.

#[global] Instance binary32 : FloatOps float32 := {|
  f0 := SpecFloat.S754_zero false;
  fadd := SpecFloat.SFadd 24 128;
  fdiv_nat := fun x n => SpecFloat.SFdiv 24 128 x (of_Z (Z.of_nat n))
|}.

(** Three one-element voices: [2^60], [-2^60] and [1.0]. *)
Definition big : float32 := of_Z 1152921504606846976.
Definition minus_big : float32 := of_Z (-1152921504606846976).
Definition one : float32 := of_Z 1.

Definition voice_files : gmap string (tensor float32) :=
  <["/voices/a.pt" := Tensor [1] [big]]>
  (<["/voices/b.pt" := Tensor [1] [minus_big]]>
  (<["/voices/c.pt" := Tensor [1] [one]]> ∅)).

Definition voice_paths (name : string) : answer (option string) :=
  if bool_decide (name = "a") then Returns (Some "/voices/a.pt")
  else if bool_decide (name = "b") then Returns (Some "/voices/b.pt")
  else if bool_decide (name = "c") then Returns (Some "/voices/c.pt")
  else Returns None.

(** A service with these voices; only its voice manager matters. *)
Definition three_voices : env float32 unit := {|
  get_backend := Returns (Legacy "cpu");
  generate_stream := fun _ _ _ => ([], None);
  generate_tokens := fun _ _ _ => Returns None;
  get_voice_path := voice_paths;
  load_voice := fun _ _ => Returns (Tensor [1] [one]);
  convert_audio := fun _ _ _ _ _ n => (Returns None, n);
  new_normalizer := tt;
  smart_split := fun _ => ([], None);
  gettempdir := "/tmp";
  writable := fun _ => true
|}.

End Float32.

(** * Properties *)

Section Properties.

Context {F : Type} `{FloatOps F}.
Context {nstate : Type}.

Implicit Types (E : env F nstate) (c : chunk_call F) (ns : nstate).
Implicit Types (fs : gmap string (tensor F)) (evs : list (event F)).

(** ** Chunk synthesizer *)

Section Signals.

Implicit Types (I : Interruptible.env F nstate).







Lemma process_failure_entry (m : string) :
  Interruptible.is_process_failure (F:=F) (Log ERROR ("Failed to process tokens: " +:+ m)) = true.
Proof.
  unfold Interruptible.is_process_failure.
  induction "Failed to process tokens: "%string as [|ch s IH]; simpl.
  - now destruct m.
  - destruct (Ascii.ascii_dec ch ch); [exact IH|congruence].
Qed.

(** With collaborators that no Interruptible.signal interrupts, the chunk synthesizer is
    the one of the service. *)
Lemma uninterrupted_emit_chunk E a fmt (fi la : bool) ns :
  Interruptible.emit_chunk (uninterrupted E) a fmt fi la ns =
  ((emit_chunk E a fmt fi la ns).1, None, (emit_chunk E a fmt fi la ns).2).
Proof.
  unfold Interruptible.emit_chunk, emit_chunk. simpl.
  destruct (format_of fmt) as [f|]; [|reflexivity].
  destruct (convert_audio E a 24000 f fi la ns) as [[b|m] ns']; reflexivity.
Qed.

Lemma uninterrupted_emit_chunks E (chunks : list (option (ndarray F))) fmt
    (fi la : bool) ns :
  Interruptible.emit_chunks (uninterrupted E) chunks fmt fi la ns =
  ((emit_chunks E chunks fmt fi la ns).1, None, (emit_chunks E chunks fmt fi la ns).2).
Proof.
  revert ns. induction chunks as [|a chunks IH]; intros ns; [reflexivity|].
  cbn [Interruptible.emit_chunks emit_chunks].
  rewrite uninterrupted_emit_chunk.
  destruct (emit_chunk E a fmt fi la ns) as [evs1 ns1]. cbn [fst snd].
  rewrite IH.
  destruct (emit_chunks E chunks fmt fi la ns1) as [evs2 ns2]. reflexivity.
Qed.

Lemma uninterrupted_body E c ns :
  Interruptible.process_chunk_body (uninterrupted E) c ns =
  ((process_chunk_body E c ns).1.1, option_map Interruptible.Exc (process_chunk_body E c ns).1.2,
   (process_chunk_body E c ns).2).
Proof.
  unfold Interruptible.process_chunk_body, process_chunk_body.
  destruct (cc_is_last c).
  { destruct (format_of (cc_format c)) as [f|]; [|reflexivity].
    simpl. destruct (convert_audio E _ 24000 f false true ns) as [[b|m] ns'];
      reflexivity. }
  destruct (_ && _); [reflexivity|].
  cbn [uninterrupted Interruptible.get_backend Interruptible.generate_stream
       Interruptible.generate_tokens Interruptible.load_voice].
  destruct (get_backend E) as [[|device]|m]; simpl; [| |reflexivity].
  - destruct (generate_stream E _ _ _) as [chunks stop].
    rewrite uninterrupted_emit_chunks.
    destruct (emit_chunks E chunks _ _ _ ns) as [evs ns']. simpl.
    destruct stop; reflexivity.
  - destruct (load_voice E _ device) as [vt|m]; simpl; [|reflexivity].
    destruct (generate_tokens E _ vt _) as [[a|]|m]; simpl; try reflexivity.
    destruct (len a) as [[|n]|e]; try reflexivity.
    rewrite uninterrupted_emit_chunk.
    destruct (emit_chunk E (Some a) _ _ _ ns) as [evs ns']. reflexivity.
Qed.

Lemma uninterrupted_process_chunk E c ns :
  Interruptible._process_chunk (uninterrupted E) c ns =
  ((_process_chunk E c ns).1.1, None, (_process_chunk E c ns).2).
Proof.
  unfold Interruptible._process_chunk, _process_chunk.
  rewrite uninterrupted_body.
  destruct (process_chunk_body E c ns) as [[evs [e|]] ns']; reflexivity.
Qed.


End Signals.

(** ** Voice resolver *)

Lemma filter_map_swap {A B : Type} (f : A -> B) (p : B -> bool) (l : list A) :
  List.filter p (map f l) = map f (List.filter (fun x => p (f x)) l).
Proof.
  induction l as [|x l IH]; simpl; [reflexivity|].
  destruct (p (f x)); simpl; congruence.
Qed.

Lemma combined_names_spec (voice : string) :
  combined_names voice =
  List.filter PyStr.truthy (map PyStr.strip (PyStr.split "+" voice)).
Proof. unfold combined_names. now rewrite filter_map_swap. Qed.

(** Loading voices raises [InvalidVoiceSpec] never. *)
Lemma load_voices_not_invalid E fs (voices : list string) e evs v :
  load_voices E fs voices = (Raise e, evs) -> e <> InvalidVoiceSpec v.
Proof.
  revert e evs. induction voices as [|w ws IH]; simpl; intros e evs Hl.
  - discriminate.
  - destruct (get_voice_path E w) as [p|m]; simpl in Hl.
    + destruct (found_path p) as [path|].
      * unfold torch_load in Hl. destruct (fs !! path).
        -- destruct (load_voices E fs ws) as [[ts|e'] evs'] eqn:Hws.
           ++ discriminate.
           ++ inversion Hl; subst. eapply IH; reflexivity.
        -- inversion Hl; subst. discriminate.
      * inversion Hl; subst. unfold VoiceNotFound, InvalidVoiceSpec.
        simpl. discriminate.
    + inversion Hl; subst. discriminate.
Qed.

Lemma get_voice_path_result E (voice : string) fs :
  (_get_voice_path E voice fs).1.1 = (get_voice_path_body E voice fs).1.1.
Proof.
  unfold _get_voice_path.
  destruct (get_voice_path_body E voice fs) as [[[r|e] evs] fs']; reflexivity.
Qed.

(** C5.  The resolver raises [InvalidVoiceSpec] exactly when the spec holds a
    ["+"] and fewer than two names are left once it is split at ["+"], the
    pieces trimmed of white space (of any code point that [str.strip] takes
    for white space) and the empty ones dropped, as for ["a+"], ["+b"], ["+"]
    and ["af+"] followed by U+2003.  A spec without ["+"] is looked up as one
    name: the voice manager's path is returned with the spec itself as the
    name, no file is written, and [VoiceNotFound] is raised exactly when the
    voice manager has no path (or an empty one) for it. *)
Theorem voice_spec_errors E (voice : string) fs :
  ((exists v, (_get_voice_path E voice fs).1.1 = Raise (InvalidVoiceSpec v)) <->
   PyStr.contains "+" voice = true /\
   length (List.filter PyStr.truthy (map PyStr.strip (PyStr.split "+" voice))) < 2) /\
  (In voice ["a+"; "+b"; "+"; "af+" +:+ PyStr.utf8 [226; 128; 131]] ->
   (_get_voice_path E voice fs).1.1 = Raise (InvalidVoiceSpec voice)) /\
  (PyStr.contains "+" voice = false ->
   (_get_voice_path E voice fs).2 = fs /\
   (forall r, (_get_voice_path E voice fs).1.1 = Ok r <->
              exists path, get_voice_path E voice = Returns (Some path) /\
                           path <> "" /\ r = (voice, path)) /\
   (forall e, (_get_voice_path E voice fs).1.1 = Raise e <->
              ((get_voice_path E voice = Returns None \/
                get_voice_path E voice = Returns (Some ""))
               /\ e = VoiceNotFound voice) \/
              (exists m, get_voice_path E voice = Fails m /\
                         e = CollabError VoiceManager m))).
Proof.
  rewrite <- combined_names_spec.
  split; [|split].
  - rewrite get_voice_path_result. unfold get_voice_path_body.
    destruct (PyStr.contains "+" voice) eqn:Hplus.
    + destruct (length (combined_names voice) <? 2)%nat eqn:Hlen.
      * apply Nat.ltb_lt in Hlen. simpl. split; eauto.
      * apply Nat.ltb_ge in Hlen. split; [|intros [_ ?]; lia].
        intros [v Hv]. exfalso.
        destruct (load_voices E fs (combined_names voice)) as [[ts|e] evs] eqn:Hl.
        -- destruct ts as [|t ts]; simpl in Hv; [discriminate|].
           destruct (forallb _ ts); simpl in Hv; [|discriminate].
           unfold torch_save in Hv.
           destruct (writable E (combined_path E voice)); simpl in Hv;
             discriminate.
        -- simpl in Hv. inversion Hv; subst.
           eapply load_voices_not_invalid; eauto.
    + split; [|intros [? _]; discriminate].
      intros [v Hv]. exfalso.
      destruct (get_voice_path E voice) as [p|m]; simpl in Hv.
      * destruct (found_path p); simpl in Hv; [discriminate|].
        unfold VoiceNotFound, InvalidVoiceSpec in Hv; simpl in Hv. discriminate.
      * discriminate.
  - rewrite get_voice_path_result. intros [<-|[<-|[<-|[<-|[]]]]]; reflexivity.
  - intros Hplus. unfold _get_voice_path, get_voice_path_body. rewrite Hplus.
    destruct (get_voice_path E voice) as [[[|a q]|]|m]; simpl.
    + split; [reflexivity|]. split.
      * intros r. split; [discriminate|]. intros (p & Hp & Hne & _). congruence.
      * intros e. split.
        -- intros [= <-]. left. auto.
        -- intros [[_ ->]|(m & Hm & _)]; [reflexivity|discriminate].
    + split; [reflexivity|]. split.
      * intros r. split.
        -- intros [= <-]. eexists. split; [reflexivity|]. split; [discriminate|reflexivity].
        -- intros (p & [= <-] & _ & ->). reflexivity.
      * intros e. split; [discriminate|].
        intros [[[Hp|Hp] _]|(m & Hm & _)]; discriminate.
    + split; [reflexivity|]. split.
      * intros r. split; [discriminate|]. intros (p & Hp & _). discriminate.
      * intros e. split.
        -- intros [= <-]. left. auto.
        -- intros [[_ ->]|(m & Hm & _)]; [reflexivity|discriminate].
    + split; [reflexivity|]. split.
      * intros r. split; [discriminate|]. intros (p & Hp & _). discriminate.
      * intros e. split.
        -- intros [= <-]. right. eauto.
        -- intros [[[Hp|Hp] _]|(m' & [= <-] & ->)]; try discriminate. reflexivity.
Qed.

(** ** Combined voices *)

Lemma sum_rows_lookup (rest : list (list F)) (r : list F) (i : nat) :
  fold_left (zip_with fadd) rest r !! i =
  (x ← r !! i; xs ← mapM (fun row : list F => row !! i) rest;
   Some (fold_left fadd xs x)).
Proof.
  revert r. induction rest as [|row rest IH]; intros r; simpl.
  - destruct (r !! i); reflexivity.
  - rewrite IH, lookup_zip_with.
    destruct (r !! i) as [x|]; simpl; [|reflexivity].
    destruct (row !! i) as [y|]; simpl; [|reflexivity].
    destruct (mapM _ rest); reflexivity.
Qed.

Lemma mapM_map_data (ts : list (tensor F)) (i : nat) :
  mapM (fun row : list F => row !! i) (map data ts) =
  mapM (fun u : tensor F => data u !! i) ts.
Proof.
  induction ts as [|t ts IH]; simpl; [reflexivity|].
  rewrite IH. reflexivity.
Qed.

(** [torch.mean(torch.stack(ts), dim=0)] is the element-wise mean. *)
Lemma torch_mean0_elementwise (ts : list (tensor F)) st (i : nat) :
  torch_stack ts = Ok st ->
  data (torch_mean0 st) !! i = elementwise_mean ts i.
Proof.
  destruct ts as [|t ts]; simpl; [discriminate|].
  destruct (forallb _ ts); [|discriminate].
  intros [= <-]. simpl.
  rewrite list_lookup_fmap, sum_rows_lookup, mapM_map_data, length_map.
  destruct (data t !! i) as [x|]; simpl; [|reflexivity].
  destruct (mapM _ ts); reflexivity.
Qed.

Lemma torch_stack_same_shape (t : tensor F) (ts : list (tensor F)) :
  (forall u, In u ts -> shape u = shape t) ->
  torch_stack (t :: ts) = Ok (shape t, map data (t :: ts)).
Proof.
  intros Hsh. simpl.
  replace (forallb _ ts) with true; [reflexivity|].
  symmetry. apply forallb_forall. intros u Hu.
  apply bool_decide_eq_true. auto.
Qed.

(** Voices that resolve and load are loaded in the order of their names. *)
Lemma load_voices_resolved E fs (names : list string) (ts : list (tensor F)) :
  Forall2 (fun name t => exists path, get_voice_path E name = Returns (Some path) /\
                                      path <> "" /\ fs !! path = Some t) names ts ->
  exists evs, load_voices E fs names = (Ok ts, evs).
Proof.
  induction 1 as [|name t names ts (path & Hp & Hne & Hfs) _ [evs IH]]; simpl.
  - eauto.
  - rewrite Hp. simpl.
    destruct path as [|ch path]; [congruence|]. simpl.
    unfold torch_load. rewrite Hfs, IH. eauto.
Qed.

Lemma split_no_sep (ch : ascii) (s : string) :
  PyStr.contains ch s = false -> PyStr.split ch s = [s].
Proof.
  induction s as [|d s IH]; simpl; [reflexivity|].
  destruct (Ascii.eqb d ch); [discriminate|].
  intros Hs. rewrite IH by assumption. reflexivity.
Qed.

Lemma split_two (ch : ascii) (a b : string) :
  PyStr.contains ch a = false -> PyStr.contains ch b = false ->
  PyStr.split ch (a +:+ String ch b) = [a; b].
Proof.
  intros Ha Hb. induction a as [|d a IH]; simpl in *.
  - rewrite Ascii.eqb_refl, split_no_sep by assumption. reflexivity.
  - destruct (Ascii.eqb d ch); [discriminate|].
    rewrite IH by assumption. reflexivity.
Qed.

Lemma zip_with_fadd_comm (xs ys : list F) :
  (forall x y : F, fadd x y = fadd y x) ->
  zip_with fadd xs ys = zip_with fadd ys xs.
Proof.
  intros Hc. revert ys. induction xs as [|x xs IH]; intros [|y ys]; simpl;
    try reflexivity.
  rewrite Hc, IH. reflexivity.
Qed.

Lemma combined_names_two (a b : string) :
  PyStr.contains "+" a = false -> PyStr.contains "+" b = false ->
  combined_names (a +:+ "+" +:+ b) =
  map PyStr.strip (List.filter (fun v => PyStr.truthy (PyStr.strip v)) [a; b]).
Proof.
  intros Ha Hb. unfold combined_names.
  change (a +:+ "+" +:+ b) with (a +:+ String "+" b).
  rewrite split_two by assumption. reflexivity.
Qed.

Lemma contains_sep_app (ch : ascii) (a b : string) :
  PyStr.contains ch (a +:+ String ch b) = true.
Proof.
  induction a as [|d a IH]; simpl.
  - now rewrite Ascii.eqb_refl.
  - destruct (Ascii.eqb d ch); auto.
Qed.

(** What the resolver does with a combination whose voices all resolve and
    load with one shape. *)
Lemma get_voice_path_combined E fs (voice : string) (t : tensor F) (ts : list (tensor F)) :
  PyStr.contains "+" voice = true ->
  Forall2 (fun name u => exists path, get_voice_path E name = Returns (Some path) /\
                                      path <> "" /\ fs !! path = Some u)
          (combined_names voice) (t :: ts) ->
  1 <= length ts ->
  (forall u, In u ts -> shape u = shape t) ->
  writable E (combined_path E voice) = true ->
  exists evs,
    _get_voice_path E voice fs =
    (Ok (voice, combined_path E voice), evs,
     <[combined_path E voice := torch_mean0 (shape t, map data (t :: ts))]> fs).
Proof.
  intros Hplus Hres Hlen Hshape Hw.
  destruct (load_voices_resolved _ _ _ _ Hres) as [evs Hload].
  apply Forall2_length in Hres. simpl in Hres.
  unfold _get_voice_path, get_voice_path_body. rewrite Hplus.
  destruct (Nat.ltb_spec (length (combined_names voice)) 2) as [Hlt|_]; [lia|].
  rewrite Hload, (torch_stack_same_shape t ts Hshape).
  unfold torch_save. rewrite Hw. eauto.
Qed.

(** C6, as amended.  When the [n >= 2] names of a combined spec all resolve
    to files that load with one shape, and the scratch file can be written,
    the resolver returns the scratch path and the tensor saved there is the
    element-wise arithmetic mean of the loaded embeddings, added up in the
    order of the names.  With exactly two names the order does not matter:
    resolving ["b+a"] saves, under its own scratch path, the very tensor that
    ["a+b"] saves.  Float addition enters through [fadd], taken commutative
    and nothing more; with three names or more the order of the names is the
    order of the additions, and nothing is promised when it changes. *)
Theorem combined_voice_mean E fs (voice : string) (ts : list (tensor F)) :
  (forall x y : F, fadd x y = fadd y x) ->
  PyStr.contains "+" voice = true ->
  Forall2 (fun name t => exists path, get_voice_path E name = Returns (Some path) /\
                                      path <> "" /\ fs !! path = Some t)
          (combined_names voice) ts ->
  2 <= length ts ->
  (forall t u, In t ts -> In u ts -> shape t = shape u) ->
  writable E (combined_path E voice) = true ->
  exists t evs,
    _get_voice_path E voice fs =
      (Ok (voice, combined_path E voice), evs, <[combined_path E voice := t]> fs) /\
    (forall i, data t !! i = elementwise_mean ts i) /\
    (forall u, In u ts -> shape t = shape u) /\
    (forall a b,
       voice = a +:+ "+" +:+ b ->
       PyStr.contains "+" a = false -> PyStr.contains "+" b = false ->
       writable E (combined_path E (b +:+ "+" +:+ a)) = true ->
       exists evs',
         _get_voice_path E (b +:+ "+" +:+ a) fs =
           (Ok (b +:+ "+" +:+ a, combined_path E (b +:+ "+" +:+ a)), evs',
            <[combined_path E (b +:+ "+" +:+ a) := t]> fs)).
Proof.
  intros Hcomm Hplus Hres Hlen Hshape Hw.
  destruct ts as [|t0 ts]; [simpl in Hlen; lia|].
  assert (Hsh0 : forall u, In u ts -> shape u = shape t0)
    by (intros u Hu; apply Hshape; simpl; auto).
  destruct (get_voice_path_combined E fs voice t0 ts) as [evs Hrun]; auto.
  { simpl in Hlen. lia. }
  exists (torch_mean0 (shape t0, map data (t0 :: ts))), evs.
  split; [exact Hrun|]. split; [|split].
  - intros i. apply torch_mean0_elementwise, torch_stack_same_shape, Hsh0.
  - intros u Hu. simpl. apply Hshape; simpl; auto.
  - intros a b -> Ha Hb Hw'.
    rewrite combined_names_two in Hres by assumption. simpl in Hres.
    assert (Htwo : PyStr.truthy (PyStr.strip a) = true /\
                   PyStr.truthy (PyStr.strip b) = true).
    { apply Forall2_length in Hres. simpl in Hlen.
      destruct (PyStr.truthy (PyStr.strip a)), (PyStr.truthy (PyStr.strip b));
        simpl in Hres; auto; lia. }
    destruct Htwo as [Hta Htb]. rewrite Hta, Htb in Hres. simpl in Hres.
    apply Forall2_cons_inv_l in Hres as (ta & rest & Pa & Hres & Heq).
    injection Heq as -> ->.
    apply Forall2_cons_inv_l in Hres as (tb & rest' & Pb & Hres & ->).
    apply Forall2_nil_inv_l in Hres as ->.
    destruct (get_voice_path_combined E fs (b +:+ "+" +:+ a) tb [ta]) as [evs' Hrun'].
    + apply (contains_sep_app "+" b a).
    + rewrite combined_names_two by assumption. simpl. rewrite Hta, Htb. simpl.
      repeat constructor; assumption.
    + simpl. lia.
    + intros u [<-|[]]. apply Hshape; simpl; auto.
    + assumption.
    + exists evs'. rewrite Hrun'. f_equal. f_equal.
      unfold torch_mean0, sum_rows. simpl.
      rewrite (zip_with_fadd_comm (data tb) (data ta)) by assumption.
      f_equal. apply Hshape; simpl; auto.
Qed.

(** ** Stream orchestrator: what the loops preserve *)

Lemma yielded_app evs evs' : yielded (evs ++ evs') = yielded evs ++ yielded evs'.
Proof. unfold yielded. apply omap_app. Qed.

Lemma invocations_app evs evs' :
  invocations (evs ++ evs') = invocations evs ++ invocations evs'.
Proof. unfold invocations. apply omap_app. Qed.

Lemma process_chunk_unfold E c ns :
  _process_chunk E c ns =
  (Invoke c :: Acquire :: (process_chunk_body E c ns).1.1
     ++ match (process_chunk_body E c ns).1.2 with
        | Some e => [Log ERROR ("Failed to process tokens: " +:+ str_exn e)]
        | None => []
        end
     ++ [Release],
   None, (process_chunk_body E c ns).2).
Proof.
  unfold _process_chunk.
  destruct (process_chunk_body E c ns) as [[body raised] ns'].
  destruct raised as [e|]; reflexivity.
Qed.

Lemma emit_chunk_quiet E a fmt (fi la : bool) ns :
  Forall quiet (emit_chunk E a fmt fi la ns).1.
Proof.
  unfold emit_chunk. destruct (format_of fmt) as [f|].
  - destruct (convert_audio E a 24000 f fi la ns) as [[b|m] ns']; simpl;
      repeat constructor.
  - repeat constructor.
Qed.

Lemma emit_chunks_quiet E (chunks : list (option (ndarray F))) fmt (fi la : bool) ns :
  Forall quiet (emit_chunks E chunks fmt fi la ns).1.
Proof.
  revert ns. induction chunks as [|a chunks IH]; intros ns; simpl.
  - constructor.
  - pose proof (emit_chunk_quiet E a fmt fi la ns) as Ha.
    destruct (emit_chunk E a fmt fi la ns) as [evs1 ns1].
    specialize (IH ns1).
    destruct (emit_chunks E chunks fmt fi la ns1) as [evs2 ns2].
    simpl in *. apply Forall_app; auto.
Qed.

Lemma process_chunk_body_quiet E c ns :
  Forall quiet (process_chunk_body E c ns).1.1.
Proof.
  unfold process_chunk_body.
  destruct (cc_is_last c).
  { destruct (format_of (cc_format c)) as [f|]; [|repeat constructor].
    destruct (convert_audio E _ 24000 f false true ns) as [[b|m] ns']; simpl;
      repeat constructor. }
  destruct (_ && _); [constructor|].
  destruct (get_backend E) as [[|device]|m]; simpl; [| |constructor].
  - destruct (generate_stream E _ _ _) as [chunks stop].
    pose proof (emit_chunks_quiet E chunks (cc_format c) (cc_is_first c) false ns) as Hq.
    destruct (emit_chunks E chunks _ _ _ ns) as [evs ns']. exact Hq.
  - destruct (load_voice E _ device) as [vt|m]; simpl; [|constructor].
    destruct (generate_tokens E _ vt _) as [[a|]|m]; simpl;
      [|repeat constructor|constructor].
    destruct (len a) as [[|n]|e]; [repeat constructor| |constructor].
    pose proof (emit_chunk_quiet E (Some a) (cc_format c) (cc_is_first c) false ns) as Hq.
    destruct (emit_chunk E (Some a) _ _ _ ns) as [evs ns']. exact Hq.
Qed.

Lemma quiet_invocations evs : Forall quiet evs -> invocations evs = [].
Proof.
  induction 1 as [|e evs He _ IH]; [reflexivity|].
  destruct e; simpl in *; try contradiction; exact IH.
Qed.

Lemma process_chunk_invocations E c ns :
  invocations (_process_chunk E c ns).1.1 = [c].
Proof.
  rewrite process_chunk_unfold. simpl.
  rewrite invocations_app, (quiet_invocations _ (process_chunk_body_quiet E c ns)).
  destruct ((process_chunk_body E c ns).1.2); reflexivity.
Qed.

Lemma process_chunk_yielded E c ns :
  yielded (_process_chunk E c ns).1.1 = yielded (process_chunk_body E c ns).1.1.
Proof.
  rewrite process_chunk_unfold. simpl.
  rewrite yielded_app.
  destruct ((process_chunk_body E c ns).1.2); simpl; apply app_nil_r.
Qed.

Lemma emit_chunk_framed E a fmt (fi la : bool) ns :
  Forall (framed_as fmt fi la) (yielded (emit_chunk E a fmt fi la ns).1).
Proof.
  unfold emit_chunk. destruct (format_of fmt) as [f|] eqn:Hf.
  - destruct (convert_audio E a 24000 f fi la ns) as [[[bs|]|m] ns']; simpl;
      repeat constructor. unfold framed_as. simpl. rewrite Hf. auto.
  - destruct a; simpl; repeat constructor; assumption.
Qed.

Lemma emit_chunks_framed E (chunks : list (option (ndarray F))) fmt (fi la : bool) ns :
  Forall (framed_as fmt fi la) (yielded (emit_chunks E chunks fmt fi la ns).1).
Proof.
  revert ns. induction chunks as [|a chunks IH]; intros ns; simpl.
  - constructor.
  - pose proof (emit_chunk_framed E a fmt fi la ns) as Ha.
    destruct (emit_chunk E a fmt fi la ns) as [evs1 ns1].
    specialize (IH ns1).
    destruct (emit_chunks E chunks fmt fi la ns1) as [evs2 ns2].
    simpl in *. rewrite yielded_app. apply Forall_app; auto.
Qed.

(** Every value a call yields is framed with the flags of the call; the
    finalization call frames as last and never as first. *)
Lemma process_chunk_framed E c ns :
  Forall (framed_as (cc_format c) (cc_is_first c && negb (cc_is_last c)) (cc_is_last c))
         (yielded (_process_chunk E c ns).1.1).
Proof.
  rewrite process_chunk_yielded. unfold process_chunk_body.
  destruct (cc_is_last c) eqn:Hlast.
  { rewrite andb_false_r.
    destruct (format_of (cc_format c)) as [f|] eqn:Hf.
    - destruct (convert_audio E _ 24000 f false true ns) as [[[bs|]|m] ns']; simpl;
        repeat constructor. unfold framed_as. simpl. rewrite Hf. auto.
    - repeat constructor. assumption. }
  rewrite andb_true_r.
  destruct (_ && _); [constructor|].
  destruct (get_backend E) as [[|device]|m]; simpl; [| |constructor].
  - destruct (generate_stream E _ _ _) as [chunks stop].
    pose proof (emit_chunks_framed E chunks (cc_format c) (cc_is_first c) false ns) as Hq.
    destruct (emit_chunks E chunks _ _ _ ns) as [evs ns']. exact Hq.
  - destruct (load_voice E _ device) as [vt|m]; simpl; [|constructor].
    destruct (generate_tokens E _ vt _) as [[a|]|m]; simpl;
      [|repeat constructor|constructor].
    destruct (len a) as [[|n]|e]; [repeat constructor| |constructor].
    pose proof (emit_chunk_framed E (Some a) (cc_format c) (cc_is_first c) false ns) as Hq.
    destruct (emit_chunk E (Some a) _ _ _ ns) as [evs ns']. exact Hq.
Qed.

Lemma call_units_framed E c ns :
  Forall (fun v => is_none v = false /\
                   framed_as (cc_format c) (cc_is_first c && negb (cc_is_last c))
                             (cc_is_last c) v)
         (call_units E c ns).
Proof.
  unfold call_units. apply List.Forall_forall. intros v Hv.
  apply filter_In in Hv as [Hv Hn]. split.
  - now apply negb_true_iff.
  - pose proof (process_chunk_framed E c ns) as Hfr.
    rewrite List.Forall_forall in Hfr. apply Hfr, Hv.
Qed.

(** *** Relaying the results of a segment *)

Lemma relay_segment_spec (chunk_text : string) evs (n : nat) :
  yielded (relay_segment chunk_text evs n).1
    = List.filter (fun v => negb (is_none v)) (yielded evs) /\
  (relay_segment chunk_text evs n).2
    = n + length (List.filter (fun v => negb (is_none v)) (yielded evs)) /\
  invocations (relay_segment chunk_text evs n).1 = invocations evs.
Proof.
  revert n. induction evs as [|e evs IH]; intros n; simpl.
  - repeat split; lia.
  - destruct e as [c| | |v|l m]; simpl.
    + destruct (IH n) as (Hy & Hn & Hi).
      destruct (relay_segment chunk_text evs n) as [out k]. simpl in *.
      repeat split; congruence.
    + destruct (IH n) as (Hy & Hn & Hi).
      destruct (relay_segment chunk_text evs n) as [out k]. simpl in *. auto.
    + destruct (IH n) as (Hy & Hn & Hi).
      destruct (relay_segment chunk_text evs n) as [out k]. simpl in *. auto.
    + destruct (is_none v) eqn:Hv; simpl.
      * destruct (IH n) as (Hy & Hn & Hi).
        destruct (relay_segment chunk_text evs n) as [out k]. simpl in *. auto.
      * destruct (IH (S n)) as (Hy & Hn & Hi).
        destruct (relay_segment chunk_text evs (S n)) as [out k]. simpl in *.
        repeat split; [congruence|lia|assumption].
    + destruct (IH n) as (Hy & Hn & Hi).
      destruct (relay_segment chunk_text evs n) as [out k]. simpl in *. auto.
Qed.

Lemma relay_final_spec evs :
  yielded (relay_final evs) = List.filter (fun v => negb (is_none v)) (yielded evs) /\
  invocations (relay_final evs) = invocations evs.
Proof.
  unfold relay_final. induction evs as [|e evs [IHy IHi]]; simpl; [auto|].
  destruct e as [c| | |v|l m]; simpl; auto.
  - split; congruence.
  - destruct (is_none v); simpl; auto. split; congruence.
Qed.

(** *** The loop over the segments *)

Lemma stream_segments_cons E (chunk_text : string) (tokens : list Z)
    (rest : list (string * list Z)) (name path : string) (speed : F)
    (fmt : option string) (n : nat) ns :
  let c := ChunkCall chunk_text tokens name path speed fmt (n =? 0)%nat false in
  let r := stream_segments E rest name path speed fmt
                           (n + length (call_units E c ns))
                           (process_chunk_body E c ns).2 in
  stream_segments E ((chunk_text, tokens) :: rest) name path speed fmt n ns =
  ((relay_segment chunk_text (_process_chunk E c ns).1.1 n).1 ++ r.1.1, r.1.2, r.2).
Proof.
  intros c r. subst r. simpl. fold c.
  destruct (relay_segment_spec chunk_text (_process_chunk E c ns).1.1 n) as (_ & Hn & _).
  unfold call_units. rewrite <- Hn. clear Hn.
  rewrite (process_chunk_unfold E c ns). simpl.
  destruct (relay_segment chunk_text _ n) as [out n1]. simpl.
  destruct (stream_segments E rest name path speed fmt n1 _) as [[out' n2] ns2].
  reflexivity.
Qed.

Lemma stream_segments_app E (s1 s2 : list (string * list Z)) (name path : string)
    (speed : F) (fmt : option string) (n : nat) ns :
  let r1 := stream_segments E s1 name path speed fmt n ns in
  let r2 := stream_segments E s2 name path speed fmt r1.1.2 r1.2 in
  stream_segments E (s1 ++ s2) name path speed fmt n ns =
  (r1.1.1 ++ r2.1.1, r2.1.2, r2.2).
Proof.
  revert n ns. induction s1 as [|[chunk_text tokens] s1 IH]; intros n ns.
  - simpl. now destruct (stream_segments E s2 name path speed fmt n ns) as [[? ?] ?].
  - cbv zeta. rewrite <- app_comm_cons, !stream_segments_cons. cbv zeta.
    rewrite IH. cbv zeta. simpl. now rewrite app_assoc.
Qed.

(** The counter counts the units emitted, no segment call is a finalization
    call, and no unit is [None] or framed as last; once a unit has been
    emitted no unit is framed as first. *)
Lemma stream_segments_inv E (segs : list (string * list Z)) (name path : string)
    (speed : F) (fmt : option string) (n : nat) ns :
  let r := stream_segments E segs name path speed fmt n ns in
  r.1.2 = n + length (yielded r.1.1) /\
  Forall (fun c => cc_is_last c = false) (invocations r.1.1) /\
  Forall (fun v => is_none v = false /\ last_flag v = false /\
                   (format_of fmt <> None -> is_bytes v = true) /\
                   (0 < n -> first_flag v = false))
         (yielded r.1.1).
Proof.
  revert n ns. induction segs as [|[chunk_text tokens] segs IH]; intros n ns.
  - simpl. repeat split; auto.
  - cbv zeta. rewrite stream_segments_cons. cbv zeta. simpl.
    set (c := ChunkCall chunk_text tokens name path speed fmt (n =? 0)%nat false).
    destruct (IH (n + length (call_units E c ns)) (process_chunk_body E c ns).2)
      as (Hn & Hi & Hy).
    destruct (relay_segment_spec chunk_text (_process_chunk E c ns).1.1 n)
      as (Ry & _ & Ri).
    rewrite yielded_app, invocations_app, Ry, Ri, process_chunk_invocations.
    fold (call_units E c ns).
    split; [|split].
    + rewrite Hn, length_app. lia.
    + constructor; [reflexivity|exact Hi].
    + apply Forall_app. split.
      * eapply Forall_impl; [apply call_units_framed|].
        intros v [Hv Hfr]. simpl in Hfr. rewrite andb_true_r in Hfr.
        destruct v as [|a|b]; simpl in *; try discriminate.
        -- repeat split; auto; try (intros Hne; contradiction).
        -- destruct Hfr as (_ & Hf & Hl). repeat split; auto.
           intros Hpos. rewrite Hf. apply Nat.eqb_neq. lia.
      * eapply Forall_impl; [exact Hy|].
        intros v (? & ? & ? & Hfirst). repeat split; auto.
        intros Hpos. apply Hfirst. lia.
Qed.

(** From a fresh counter, the units of the stream begin with the units of one
    call, made with [is_first] set, and no later unit is framed as first. *)
Lemma stream_segments_first E (segs : list (string * list Z)) (name path : string)
    (speed : F) (fmt : option string) ns :
  let r := stream_segments E segs name path speed fmt 0 ns in
  yielded r.1.1 <> [] ->
  exists c ns0 rest,
    In (Invoke c) r.1.1 /\
    cc_is_first c = true /\ cc_is_last c = false /\ cc_format c = fmt /\
    call_units E c ns0 <> [] /\
    yielded r.1.1 = call_units E c ns0 ++ rest /\
    Forall (fun v => first_flag v = false) rest.
Proof.
  revert ns. induction segs as [|[chunk_text tokens] segs IH]; intros ns.
  - simpl. congruence.
  - cbv zeta. rewrite stream_segments_cons. cbv zeta. simpl.
    set (c := ChunkCall chunk_text tokens name path speed fmt true false).
    destruct (relay_segment_spec chunk_text (_process_chunk E c ns).1.1 0)
      as (Ry & _ & _).
    rewrite yielded_app, Ry. fold (call_units E c ns).
    destruct (call_units E c ns) as [|u us] eqn:Hu.
    + simpl. intros Hne.
      destruct (IH _ Hne) as (c' & ns0 & rest & Hin & Hrest).
      exists c', ns0, rest. split; [|exact Hrest].
      apply in_or_app. right. exact Hin.
    + intros _. exists c, ns.
      exists (yielded (stream_segments E segs name path speed fmt
                         (0 + length (u :: us)) (process_chunk_body E c ns).2).1.1).
      rewrite Hu. repeat split; try reflexivity; try discriminate.
      * apply in_or_app. left.
        pose proof (relay_segment_spec chunk_text (_process_chunk E c ns).1.1 0)
          as (_ & _ & Ri).
        rewrite process_chunk_invocations in Ri.
        clear -Ri. induction (relay_segment chunk_text _ 0).1 as [|e l IHl];
          simpl in *; [discriminate|].
        destruct e; simpl in Ri; auto.
        injection Ri as -> _. auto.
      * eapply Forall_impl; [apply stream_segments_inv|].
        intros v (_ & _ & _ & Hfirst). apply Hfirst. simpl. lia.
Qed.

(** *** Finalization *)

Lemma finalize_spec E (name path : string) (speed : F) (fmt : option string)
    (n : nat) ns :
  yielded (finalize E name path speed fmt n ns).1
    = (if (0 <? n)%nat then call_units E (final_call name path speed fmt) ns else []) /\
  invocations (finalize E name path speed fmt n ns).1
    = (if (0 <? n)%nat then [final_call name path speed fmt] else []) /\
  (n = 0 -> (finalize E name path speed fmt n ns).1 = []).
Proof.
  unfold finalize. destruct (0 <? n)%nat eqn:Hn.
  - pose proof (process_chunk_invocations E (final_call name path speed fmt) ns) as Hi.
    unfold call_units.
    pose proof (process_chunk_unfold E (final_call name path speed fmt) ns) as Hp.
    destruct (_process_chunk E (final_call name path speed fmt) ns)
      as [[evs stop] ns'].
    injection Hp as _ -> _. simpl in *.
    rewrite app_nil_r.
    destruct (relay_final_spec evs) as [Ry Ri].
    rewrite Ry, Ri, Hi. repeat split; auto.
    intros ->. discriminate.
  - simpl. auto.
Qed.

(** The units of the finalization call: the empty array without a format, the
    encoder's closing payload with one, nothing when the encoder fails or
    returns [None]. *)
Lemma final_call_units E (name path : string) (speed : F) (fmt : option string) ns :
  call_units E (final_call name path speed fmt) ns =
  match format_of fmt with
  | None => [VArray (Vec [])]
  | Some f =>
      match (convert_audio E (Some (Vec [f0])) 24000 f false true ns).1 with
      | Returns (Some bs) => [VBytes (Encoded bs false true)]
      | _ => []
      end
  end.
Proof.
  unfold call_units. rewrite process_chunk_yielded.
  unfold process_chunk_body. simpl.
  destruct (format_of fmt) as [f|]; [|reflexivity].
  destruct (convert_audio E _ 24000 f false true ns) as [[[bs|]|m] ns']; reflexivity.
Qed.

(** *** The resolver only logs *)

Lemma load_voices_logs E fs (voices : list string) :
  invocations (load_voices E fs voices).2 = [] /\
  yielded (load_voices E fs voices).2 = [].
Proof.
  induction voices as [|v voices [IHi IHy]]; simpl; [auto|].
  destruct (get_voice_path E v) as [p|m]; simpl; [|auto].
  destruct (found_path p) as [q|]; [|auto].
  destruct (torch_load fs q); [|auto].
  destruct (load_voices E fs voices) as [[ts|e] evs]; simpl in *; auto.
Qed.

Lemma resolver_logs E (voice : string) fs :
  invocations (_get_voice_path E voice fs).1.2 = [] /\
  yielded (_get_voice_path E voice fs).1.2 = [].
Proof.
  assert (Hbody : invocations (get_voice_path_body E voice fs).1.2 = [] /\
                  yielded (get_voice_path_body E voice fs).1.2 = []).
  { unfold get_voice_path_body.
    destruct (PyStr.contains "+" voice).
    - destruct (length (combined_names voice) <? 2)%nat; [auto|].
      destruct (load_voices_logs E fs (combined_names voice)) as [Li Ly].
      destruct (load_voices E fs (combined_names voice)) as [[ts|e] evs];
        simpl in *; [|auto].
      destruct (torch_stack ts) as [st|e]; simpl.
      + unfold torch_save. destruct (writable E _); simpl;
          rewrite invocations_app, yielded_app, Li, Ly; auto.
      + rewrite invocations_app, yielded_app, Li, Ly; auto.
    - destruct (get_voice_path E voice) as [p|m]; simpl; [|auto].
      destruct (found_path p); simpl; auto. }
  unfold _get_voice_path.
  destruct (get_voice_path_body E voice fs) as [[[r|e] evs] fs']; simpl in *;
    [exact Hbody|].
  destruct Hbody as [Hi Hy]. rewrite invocations_app, yielded_app, Hi, Hy. auto.
Qed.

(** *** The whole stream *)

(** A stream whose set-up succeeds and whose segmenter raises nothing. *)
Lemma stream_unfold E (text voice : string) (speed : F) (fmt : option string) fs
    b (name path : string) evs0 fs' (segs : list (string * list Z)) :
  get_backend E = Returns b ->
  _get_voice_path E voice fs = (Ok (name, path), evs0, fs') ->
  smart_split E text = (segs, None) ->
  let r := stream_segments E segs name path speed fmt 0 (new_normalizer E) in
  generate_audio_stream E text voice speed fmt fs =
  Run ((evs0 ++ [Log DEBUG ("Using voice path: " +:+ path)])
         ++ r.1.1 ++ (finalize E name path speed fmt r.1.2 r.2).1)
      None fs'.
Proof.
  intros Hb Hv Hs. cbv zeta. unfold generate_audio_stream.
  rewrite Hb, Hv, Hs. simpl.
  destruct (stream_segments E segs name path speed fmt 0 (new_normalizer E))
    as [[evs2 n] ns]. simpl.
  destruct (finalize E name path speed fmt n ns). reflexivity.
Qed.

(** A stream that ends without an exception is such a stream. *)
Lemma stream_completed E (text voice : string) (speed : F) (fmt : option string) fs :
  outcome (generate_audio_stream E text voice speed fmt fs) = None ->
  exists b name path evs0 fs' segs,
    get_backend E = Returns b /\
    _get_voice_path E voice fs = (Ok (name, path), evs0, fs') /\
    smart_split E text = (segs, None).
Proof.
  unfold generate_audio_stream.
  destruct (get_backend E) as [b|m]; simpl; [|discriminate].
  destruct (_get_voice_path E voice fs) as [[[[name path]|e] evs0] fs'];
    [|discriminate].
  destruct (smart_split E text) as [segs [m|]]; simpl.
  - destruct (stream_segments E segs name path speed fmt 0 (new_normalizer E))
      as [[evs2 n] ns]. discriminate.
  - intros _. exists b, name, path, evs0, fs', segs. auto.
Qed.

(** A stream that ends with an exception never reached finalization. *)
Lemma stream_failed E (text voice : string) (speed : F) (fmt : option string) fs :
  outcome (generate_audio_stream E text voice speed fmt fs) <> None ->
  Forall (fun c => cc_is_last c = false)
         (invocations (events (generate_audio_stream E text voice speed fmt fs))).
Proof.
  unfold generate_audio_stream.
  destruct (get_backend E) as [b|m]; simpl; [|constructor].
  destruct (resolver_logs E voice fs) as [Hri _].
  destruct (_get_voice_path E voice fs) as [[[[name path]|e] evs0] fs'] eqn:Hv;
    simpl in Hri.
  - destruct (smart_split E text) as [segs [m|]]; simpl.
    + pose proof (stream_segments_inv E segs name path speed fmt 0 (new_normalizer E))
        as (_ & Hi & _).
      destruct (stream_segments E segs name path speed fmt 0 (new_normalizer E))
        as [[evs2 n] ns]. simpl in *. intros _.
      rewrite !invocations_app, Hri. simpl. rewrite app_nil_r. exact Hi.
    + destruct (stream_segments E segs name path speed fmt 0 (new_normalizer E))
        as [[evs2 n] ns]. destruct (finalize E name path speed fmt n ns).
      simpl. congruence.
  - simpl. intros _. rewrite invocations_app, Hri. constructor.
Qed.

(** ** Finalization *)

(** C1.  In a stream that runs its segment loop to the end, the events split
    into those up to the end of the loop and those after it.  The loop makes
    no finalization call, and its counter is the number of units emitted so
    far.  When the counter is positive, exactly one call follows: the
    finalization call (empty text, no tokens, [is_first=False],
    [is_last=True]).  When it is zero, nothing follows and the stream has
    emitted nothing.  A stream that ends with an exception makes no
    finalization call either. *)
Theorem finalization_iff E (text voice : string) (speed : F) (fmt : option string) fs :
  let r := generate_audio_stream E text voice speed fmt fs in
  (outcome r = None ->
   exists name path segs before after,
     (_get_voice_path E voice fs).1.1 = Ok (name, path) /\
     smart_split E text = (segs, None) /\
     events r = before ++ after /\
     (stream_segments E segs name path speed fmt 0 (new_normalizer E)).1.2
       = length (yielded before) /\
     Forall (fun c => cc_is_last c = false) (invocations before) /\
     (0 < length (yielded before) ->
      exists fc, invocations after = [fc] /\
                 fc = final_call name path speed fmt /\
                 cc_text fc = "" /\ cc_tokens fc = [] /\
                 cc_is_first fc = false /\ cc_is_last fc = true) /\
     (length (yielded before) = 0 -> after = [] /\ yielded (events r) = [])) /\
  (outcome r <> None ->
   Forall (fun c => cc_is_last c = false) (invocations (events r))).
Proof.
  cbv zeta. split; [|apply stream_failed].
  intros Hdone.
  destruct (stream_completed _ _ _ _ _ _ Hdone)
    as (b & name & path & evs0 & fs' & segs & Hb & Hv & Hs).
  rewrite (stream_unfold E text voice speed fmt fs b name path evs0 fs' segs Hb Hv Hs).
  cbv zeta. simpl.
  destruct (resolver_logs E voice fs) as [Hri Hry]. rewrite Hv in Hri, Hry |- *.
  simpl in Hri, Hry.
  destruct (stream_segments_inv E segs name path speed fmt 0 (new_normalizer E))
    as (Hn & Hi & _).
  set (r := stream_segments E segs name path speed fmt 0 (new_normalizer E)) in *.
  destruct (finalize_spec E name path speed fmt r.1.2 r.2) as (Fy & Fi & F0).
  exists name, path, segs, ((evs0 ++ [Log DEBUG ("Using voice path: " +:+ path)]) ++ r.1.1),
    (finalize E name path speed fmt r.1.2 r.2).1.
  assert (Hyb : yielded ((evs0 ++ [Log DEBUG ("Using voice path: " +:+ path)]) ++ r.1.1)
                = yielded r.1.1).
  { rewrite !yielded_app, Hry. reflexivity. }
  rewrite Hyb. repeat split; auto.
  - now rewrite app_assoc.
  - rewrite !invocations_app, Hri. exact Hi.
  - intros Hpos. exists (final_call name path speed fmt).
    rewrite Fi, Hn. simpl.
    destruct (Nat.ltb_spec 0 (length (yielded r.1.1))); [|lia].
    repeat split; reflexivity.
  - apply F0. lia.
  - rewrite F0 by lia. rewrite app_nil_r, Hyb.
    now apply length_zero_iff_nil.
Qed.

(** ** Framing flags *)

(** C2, as amended.  Take a stream with a format set that ends without an
    exception and emits at least one unit.  Its units are: the units of one
    segment call made with [is_first=True], the first of which is encoded
    with [is_first_chunk=True]; then the units of later segments, none encoded
    with [is_first_chunk=True]; then the finalization unit, encoded with
    [is_first_chunk=False] and [is_last_chunk=True], present exactly when the
    closing [convert_audio] call returns a payload.  No unit before it is
    encoded with [is_last_chunk=True]. *)
Theorem first_and_last_framing E (text voice : string) (speed : F)
    (fmt : option string) (f : string) fs :
  let r := generate_audio_stream E text voice speed fmt fs in
  format_of fmt = Some f ->
  outcome r = None ->
  yielded (events r) <> [] ->
  exists name path segs c ns0 u us later fin,
    (_get_voice_path E voice fs).1.1 = Ok (name, path) /\
    smart_split E text = (segs, None) /\
    yielded (events r) = (u :: us) ++ later ++ fin /\
    In (Invoke c) (events r) /\ cc_is_first c = true /\ cc_is_last c = false /\
    call_units E c ns0 = u :: us /\
    first_flag u = true /\
    Forall (fun v => first_flag v = false) (later ++ fin) /\
    Forall (fun v => last_flag v = false) ((u :: us) ++ later) /\
    fin = match (convert_audio E (Some (Vec [f0])) 24000 f false true
                   (stream_segments E segs name path speed fmt 0 (new_normalizer E)).2).1
          with
          | Returns (Some bs) => [VBytes (Encoded bs false true)]
          | _ => []
          end.
Proof.
  cbv zeta. intros Hf Hdone.
  destruct (stream_completed _ _ _ _ _ _ Hdone)
    as (b & name & path & evs0 & fs' & segs & Hb & Hv & Hs).
  rewrite (stream_unfold E text voice speed fmt fs b name path evs0 fs' segs Hb Hv Hs).
  cbv zeta. simpl.
  destruct (resolver_logs E voice fs) as [_ Hry]. rewrite Hv in Hry |- *.
  simpl in Hry.
  destruct (stream_segments_inv E segs name path speed fmt 0 (new_normalizer E))
    as (Hn & _ & Hflags).
  pose proof (stream_segments_first E segs name path speed fmt (new_normalizer E))
    as Hfirst.
  set (r := stream_segments E segs name path speed fmt 0 (new_normalizer E)) in *.
  destruct (finalize_spec E name path speed fmt r.1.2 r.2) as (Fy & _ & F0).
  rewrite !yielded_app, Hry, Fy. simpl.
  intros Hne.
  assert (Hloop : yielded r.1.1 <> []).
  { intros Hnil. apply Hne. rewrite Hnil, Hn, Hnil. reflexivity. }
  destruct (Hfirst Hloop) as (c & ns0 & later & Hin & Hcf & Hcl & Hfmt & Hu & Hy & Hlater).
  destruct (call_units E c ns0) as [|u us] eqn:Hunits; [congruence|].
  assert (Hpos : (0 <? r.1.2)%nat = true).
  { apply Nat.ltb_lt. rewrite Hn. destruct (yielded r.1.1); [congruence|simpl; lia]. }
  rewrite Hpos, final_call_units, Hf.
  exists name, path, segs, c, ns0, u, us, later.
  eexists. repeat split; try reflexivity; auto.
  - rewrite Hy. now rewrite <- app_assoc.
  - apply in_or_app. right. apply in_or_app. left. exact Hin.
  - pose proof (call_units_framed E c ns0) as Hfr. rewrite Hunits in Hfr.
    apply Forall_cons in Hfr as [[Hnone Hfr] _].
    rewrite Hcf, Hcl, Hfmt in Hfr. simpl in Hfr.
    destruct u as [|a|bs]; simpl in *; [discriminate|congruence|tauto].
  - apply Forall_app. split; [exact Hlater|].
    match goal with
    | |- context [match ?x with Returns _ => _ | Fails _ => _ end] =>
        destruct x as [[bs|]|m]
    end; repeat constructor.
  - rewrite Hy in Hflags. eapply Forall_impl; [exact Hflags|].
    intros v (_ & Hl & _). exact Hl.
Qed.

(** ** A failing segment *)












(** ** Empty text *)

(** C4.  When the segmenter yields nothing for the empty text,
    [generate_audio_stream] on [""] makes no call and emits nothing, and
    [generate_audio] raises.  When moreover the set-up of the stream succeeds
    (a backend is there and the voice resolves), the stream ends without an
    exception and what [generate_audio] raises is the [ValueError] for a
    stream without chunks. *)
Theorem empty_text_yields_nothing E (voice : string) (speed : F)
    (fmt : option string) fs :
  smart_split E "" = ([], None) ->
  let r := generate_audio_stream E "" voice speed fmt fs in
  yielded (events r) = [] /\ invocations (events r) = [] /\
  (exists e, (generate_audio E "" voice speed fs).1.1 = Raise e) /\
  (forall b name path,
     get_backend E = Returns b ->
     (_get_voice_path E voice fs).1.1 = Ok (name, path) ->
     outcome r = None /\
     (generate_audio E "" voice speed fs).1.1 =
       Raise (ValueError "No audio chunks were generated successfully")).
Proof.
  intros Hs. cbv zeta.
  destruct (resolver_logs E voice fs) as [Hri Hry].
  assert (Hstream : forall fmt',
    let r := generate_audio_stream E "" voice speed fmt' fs in
    yielded (events r) = [] /\ invocations (events r) = [] /\
    (forall b name path,
       get_backend E = Returns b ->
       (_get_voice_path E voice fs).1.1 = Ok (name, path) -> outcome r = None)).
  { intros fmt'. cbv zeta. unfold generate_audio_stream.
    destruct (get_backend E) as [b|m]; simpl.
    2:{ repeat split; auto. intros; discriminate. }
    destruct (_get_voice_path E voice fs) as [[[[name path]|e] evs0] fs'];
      simpl in Hri, Hry |- *.
    - rewrite Hs. simpl.
      rewrite !yielded_app, !invocations_app, Hri, Hry. auto.
    - rewrite yielded_app, invocations_app, Hri, Hry.
      repeat split; auto. intros; discriminate. }
  destruct (Hstream fmt) as (Hy & Hi & Hout).
  destruct (Hstream default_output_format) as (Hy' & _ & Hout').
  split; [exact Hy|]. split; [exact Hi|].
  unfold generate_audio. rewrite Hy'. simpl. split.
  - destruct (outcome (generate_audio_stream E "" voice speed default_output_format fs));
      simpl; eexists; reflexivity.
  - intros b name path Hb Hv. split; [eauto|].
    rewrite (Hout' b name path Hb Hv). reflexivity.
Qed.

(** ** The aggregate synthesizer *)

Lemma stream_segments_formats E (segs : list (string * list Z)) (name path : string)
    (speed : F) (fmt : option string) (n : nat) ns :
  Forall (fun c => cc_format c = fmt)
         (invocations (stream_segments E segs name path speed fmt n ns).1.1).
Proof.
  revert n ns. induction segs as [|[chunk_text tokens] segs IH]; intros n ns.
  - constructor.
  - rewrite stream_segments_cons. cbv zeta. simpl.
    destruct (relay_segment_spec chunk_text
      (_process_chunk E (ChunkCall chunk_text tokens name path speed fmt (n =? 0)%nat false)
                      ns).1.1 n) as (_ & _ & Ri).
    rewrite invocations_app, Ri, process_chunk_invocations.
    constructor; [reflexivity|apply IH].
Qed.

(** What a stream lets see of its calls and units: those of the segment loop,
    followed (when the loop ends without an exception) by those of the
    finalization step. *)
Lemma stream_observed E (text voice : string) (speed : F) (fmt : option string) fs :
  let r := generate_audio_stream E text voice speed fmt fs in
  (yielded (events r) = [] /\ invocations (events r) = []) \/
  exists name path segs,
    let l := stream_segments E segs name path speed fmt 0 (new_normalizer E) in
    (yielded (events r) = yielded l.1.1 /\
     invocations (events r) = invocations l.1.1) \/
    (yielded (events r)
       = yielded l.1.1 ++ yielded (finalize E name path speed fmt l.1.2 l.2).1 /\
     invocations (events r)
       = invocations l.1.1 ++ invocations (finalize E name path speed fmt l.1.2 l.2).1).
Proof.
  cbv zeta. unfold generate_audio_stream.
  destruct (get_backend E) as [b|m]; simpl; [|auto].
  destruct (resolver_logs E voice fs) as [Hri Hry].
  destruct (_get_voice_path E voice fs) as [[[[name path]|e] evs0] fs'];
    simpl in Hri, Hry.
  - right. exists name, path. destruct (smart_split E text) as [segs stop].
    exists segs. cbv zeta.
    destruct (stream_segments E segs name path speed fmt 0 (new_normalizer E))
      as [[evs2 n] ns]. simpl.
    destruct stop as [m|]; simpl.
    + left. rewrite !yielded_app, !invocations_app, Hri, Hry. simpl.
      now rewrite !app_nil_r.
    + right. destruct (finalize E name path speed fmt n ns) as [evs3 ns']. simpl.
      rewrite !yielded_app, !invocations_app, Hri, Hry. auto.
  - left. simpl. rewrite yielded_app, invocations_app, Hri, Hry. auto.
Qed.

Lemma combine_chunks_bytes (chunks : list (value F)) (audio : value F) :
  Forall (fun v => is_bytes v = true) chunks ->
  combine_chunks chunks = Ok audio ->
  chunks = [audio].
Proof.
  intros Hb. destruct chunks as [|c [|c' rest]]; simpl.
  - discriminate.
  - now intros [= ->].
  - apply Forall_cons in Hb as [Hc _].
    destruct c as [|a|b]; simpl in *; discriminate.
Qed.

Lemma filter_all {A : Type} (p : A -> bool) (l : list A) :
  Forall (fun x => p x = true) l -> List.filter p l = l.
Proof.
  induction 1 as [|x l Hx _ IH]; simpl; [reflexivity|]. now rewrite Hx, IH.
Qed.

(** C10.  [generate_audio] runs [generate_audio_stream] with the default
    format ["wav"]: its events begin with those of that stream, every
    [_process_chunk] call of the stream is made with the format ["wav"], and
    every unit the stream emits is an encoded payload.  So when
    [generate_audio] returns, what it returns is an encoded payload, the only
    unit of the stream. *)
Theorem generate_audio_collects_payloads E (text voice : string) (speed : F) fs :
  let r := generate_audio_stream E text voice speed (Some "wav") fs in
  let g := generate_audio E text voice speed fs in
  (exists tail, g.1.2 = events r ++ tail) /\
  Forall (fun c => cc_format c = Some "wav") (invocations (events r)) /\
  Forall (fun v => is_bytes v = true) (yielded (events r)) /\
  (forall audio, g.1.1 = Ok audio ->
                 is_bytes audio = true /\ yielded (events r) = [audio]).
Proof.
  cbv zeta.
  assert (Hbytes : Forall (fun v => is_bytes v = true)
            (yielded (events (generate_audio_stream E text voice speed (Some "wav") fs)))
          /\ Forall (fun c => cc_format c = Some "wav")
            (invocations (events (generate_audio_stream E text voice speed
                                    (Some "wav") fs)))).
  { destruct (stream_observed E text voice speed (Some "wav") fs)
      as [[-> ->]|(name & path & segs & Hobs)]; [split; constructor|].
    cbv zeta in Hobs.
    destruct (stream_segments_inv E segs name path speed (Some "wav") 0 (new_normalizer E))
      as (_ & _ & Hy).
    pose proof (stream_segments_formats E segs name path speed (Some "wav") 0
                  (new_normalizer E)) as Hi.
    assert (Hloop : Forall (fun v => is_bytes v = true)
              (yielded (stream_segments E segs name path speed (Some "wav") 0
                          (new_normalizer E)).1.1)).
    { eapply Forall_impl; [exact Hy|]. intros v (_ & _ & Hb & _).
      apply Hb. discriminate. }
    destruct Hobs as [[-> ->]|[-> ->]]; [auto|].
    set (l := stream_segments E segs name path speed (Some "wav") 0 (new_normalizer E)) in *.
    destruct (finalize_spec E name path speed (Some "wav") l.1.2 l.2) as (Fy & Fi & _).
    rewrite Fy, Fi, final_call_units. simpl.
    split; apply Forall_app; split; auto.
    - destruct (0 <? l.1.2)%nat; [|constructor].
      destruct ((convert_audio E (Some (Vec [f0])) 24000 "wav" false true l.2).1)
        as [[bs|]|m]; repeat constructor.
    - destruct (0 <? l.1.2)%nat; repeat constructor. }
  destruct Hbytes as [Hy Hi].
  split; [|split; [exact Hi|split; [exact Hy|]]].
  - unfold generate_audio, default_output_format.
    destruct (match outcome _ with Some e => Raise e | None => _ end);
      simpl; eauto using app_nil_r.
  - unfold generate_audio, default_output_format.
    set (r := generate_audio_stream E text voice speed (Some "wav") fs) in *.
    intros audio.
    rewrite (filter_all (fun v => negb (is_none v)) (yielded (events r))).
    2:{ eapply Forall_impl; [exact Hy|]. intros [|a|b]; simpl; congruence. }
    destruct (outcome r) as [e|]; simpl; [discriminate|].
    destruct (combine_chunks (yielded (events r))) as [v|e] eqn:Hc; simpl;
      [|discriminate].
    intros [= <-].
    pose proof (combine_chunks_bytes _ _ Hy Hc) as Hone.
    split; [|exact Hone].
    rewrite Hone in Hy. now apply Forall_cons in Hy as [Hv _].
Qed.

(** ** The chunk limiter *)

Lemma discipline_quiet (h : nat) (l r : list (event F)) :
  Forall quiet l -> permit_discipline h (l ++ r) <-> permit_discipline h r.
Proof.
  induction 1 as [|e l He _ IH]; simpl; [tauto|].
  destruct e; simpl in He; try contradiction; exact IH.
Qed.

(** A call takes its permit before its body and gives it back after it,
    whether the body ended with an exception or not. *)
Lemma process_chunk_disciplined E c ns :
  permit_discipline 0 (_process_chunk E c ns).1.1.
Proof.
  rewrite process_chunk_unfold. simpl. split; [reflexivity|].
  apply discipline_quiet; [apply process_chunk_body_quiet|].
  destruct ((process_chunk_body E c ns).1.2); simpl; auto.
Qed.

Lemma discipline_held (h : nat) (l : list (event F)) :
  permit_discipline h l -> h <= 1.
Proof.
  revert h. induction l as [|e l IH]; simpl; intros h Hd; [lia|].
  destruct e; simpl in Hd; [apply IH; exact Hd| | |apply IH; exact Hd..].
  - destruct Hd as [-> _]. lia.
  - destruct Hd as [-> _]. lia.
Qed.

Lemma task_step_ok (p p' : nat) (t t' : task F) :
  task_step p t p' t' ->
  permit_discipline (held t) (todo t) ->
  permit_discipline (held t') (todo t') /\ p' + held t' = p + held t.
Proof.
  destruct 1; simpl; intros Hd.
  - auto.
  - destruct Hd as [-> Hd]. split; [exact Hd|lia].
  - destruct Hd as [Hh Hd]. injection Hh as ->. split; [exact Hd|lia].
  - auto.
  - auto.
  - split; [reflexivity|lia].
Qed.

Lemma sum_held_insert (l : list (task F)) (i : nat) (t t' : task F) :
  l !! i = Some t ->
  sum_list (map held (<[i := t']> l)) + held t = sum_list (map held l) + held t'.
Proof.
  revert i. induction l as [|u l IH]; intros [|i]; simpl; try discriminate.
  - intros [= ->]. lia.
  - intros Hi. specialize (IH i Hi). lia.
Qed.

Lemma pool_init_ok (calls : list (env F nstate * chunk_call F * nstate)) :
  pool_ok (pool_init calls).
Proof.
  unfold pool_ok, pool_init. cbn [tasks permits]. split.
  - apply Forall_map, Forall_forall. intros [[E c] ns] _. simpl.
    apply process_chunk_disciplined.
  - assert (Hz : sum_list (map held (map (fun '(E, c, ns) =>
                   Task 0 (_process_chunk E c ns).1.1) calls)) = 0).
    { induction calls as [|[[E c] ns] calls IH]; simpl; auto. }
    rewrite Hz. lia.
Qed.

Lemma pool_step_ok (s s' : pool F) : pool_ok s -> pool_step s s' -> pool_ok s'.
Proof.
  intros [Hd Hsum] Hstep. destruct Hstep as [i t p' t' s Hi Hts].
  assert (Ht : permit_discipline (held t) (todo t)).
  { rewrite Forall_lookup in Hd. exact (Hd i t Hi). }
  destruct (task_step_ok _ _ _ _ Hts Ht) as [Ht' Hbal].
  split; simpl.
  - apply Forall_insert; assumption.
  - pose proof (sum_held_insert (tasks s) i t t' Hi). lia.
Qed.

Lemma pool_reachable_ok (calls : list (env F nstate * chunk_call F * nstate))
    (s : pool F) :
  rtc pool_step (pool_init calls) s -> pool_ok s.
Proof.
  revert s. apply (rtc_ind_r pool_ok).
  - apply pool_init_ok.
  - intros s s' _ Hstep Hok. eapply pool_step_ok; eassumption.
Qed.

Lemma executing_sum (l : list (task F)) :
  Forall (fun t => held t <= 1) l ->
  length (List.filter (fun t => (0 <? held t)%nat) l) = sum_list (map held l).
Proof.
  induction 1 as [|t l Ht _ IH]; simpl; [reflexivity|].
  destruct (held t) as [|[|h]]; simpl; lia.
Qed.

Lemma under_permit_quiet (l r : list (event F)) :
  Forall quiet l -> under_permit 1 r -> under_permit 1 (l ++ r).
Proof.
  induction 1 as [|e l He _ IH]; simpl; [tauto|].
  intros Hr. destruct e; simpl in He; try contradiction; auto.
Qed.

(** A call is made, takes its permit, runs its body and the handler of its
    [try] holding it, and gives it back last. *)
Lemma process_chunk_under_permit E c ns :
  under_permit 0 (_process_chunk E c ns).1.1.
Proof.
  rewrite process_chunk_unfold. simpl. split; [reflexivity|]. split; [reflexivity|].
  apply under_permit_quiet; [apply process_chunk_body_quiet|].
  destruct ((process_chunk_body E c ns).1.2); simpl; auto.
Qed.

Lemma task_step_under_permit (p p' : nat) (t t' : task F) :
  task_step p t p' t' ->
  under_permit (held t) (todo t) -> under_permit (held t') (todo t').
Proof.
  destruct 1; simpl.
  - intros [-> Hd]. exact Hd.
  - intros [-> Hd]. exact Hd.
  - intros [Hh ->]. injection Hh as ->. reflexivity.
  - intros [-> Hd]. exact Hd.
  - intros [-> Hd]. exact Hd.
  - reflexivity.
Qed.

Lemma pool_reachable_under_permit
    (calls : list (env F nstate * chunk_call F * nstate)) (s : pool F) :
  rtc pool_step (pool_init calls) s ->
  Forall (fun t => under_permit (held t) (todo t)) (tasks s).
Proof.
  revert s.
  apply (rtc_ind_r (fun s => Forall (fun t => under_permit (held t) (todo t)) (tasks s))).
  - unfold pool_init. cbn [tasks].
    apply Forall_map, Forall_forall. intros [[E c] ns] _. simpl.
    apply process_chunk_under_permit.
  - intros s s' _ Hstep Hok. destruct Hstep as [i t p' t' s Hi Hts]. simpl.
    apply Forall_insert; [exact Hok|].
    rewrite Forall_lookup in Hok.
    exact (task_step_under_permit _ _ _ _ Hts (Hok i t Hi)).
Qed.

(** A call is in its body exactly when it holds a permit. *)
Lemma in_body_iff_held (t : task F) :
  under_permit (held t) (todo t) -> (in_body t = true <-> held t = 1).
Proof.
  unfold in_body. destruct (todo t) as [|[c| | |v|l m] r]; simpl.
  - intros ->. split; discriminate.
  - intros [-> _]. split; discriminate.
  - intros [-> _]. split; discriminate.
  - intros [-> _]. tauto.
  - intros [-> _]. tauto.
  - intros [-> _]. tauto.
Qed.

Lemma running_executing (l : list (task F)) :
  Forall (fun t => under_permit (held t) (todo t)) l ->
  length (List.filter in_body l) =
  length (List.filter (fun t => (0 <? held t)%nat) l).
Proof.
  induction 1 as [|t l Ht _ IH]; [reflexivity|]. cbn [List.filter].
  replace (in_body t) with (0 <? held t)%nat;
    [destruct (0 <? held t)%nat; cbn [length]; rewrite IH; reflexivity|].
  unfold in_body. destruct (todo t) as [|[c| | |v|lvl m] r]; simpl in Ht.
  - rewrite Ht. reflexivity.
  - destruct Ht as [-> _]. reflexivity.
  - destruct Ht as [-> _]. reflexivity.
  - destruct Ht as [-> _]. reflexivity.
  - destruct Ht as [-> _]. reflexivity.
  - destruct Ht as [-> _]. reflexivity.
Qed.

(** C8.  However the event loop interleaves any number of [_process_chunk]
    calls, of any requests, at most 4 of them are inside the [async with] at
    a time: the free permits and the executing calls always make up the
    capacity of the semaphore.  Each call follows the permit discipline: it
    holds one permit from the start of its body until it leaves (normally,
    after a logged exception, or closed by a consumer that abandons it), and
    holds none once it has nothing left to do.  The permit covers the body: a
    call takes it before anything else, yields and logs only while it holds
    it, and gives it back last; so the calls whose body is running are the
    calls that hold a permit, at most 4 of them, and together with the free
    permits they make up the capacity. *)
Theorem at_most_four_chunks_execute
    (calls : list (env F nstate * chunk_call F * nstate)) (s : pool F) :
  rtc pool_step (pool_init calls) s ->
  executing s <= 4 /\
  permits s + executing s = _chunk_semaphore /\
  Forall (fun t => permit_discipline (held t) (todo t) /\
                   held t <= 1 /\ (todo t = [] -> held t = 0))
         (tasks s) /\
  running s <= 4 /\
  permits s + running s = _chunk_semaphore /\
  Forall (fun t => under_permit (held t) (todo t) /\
                   (in_body t = true <-> held t = 1))
         (tasks s).
Proof.
  intros Hrun. destruct (pool_reachable_ok calls s Hrun) as [Hd Hsum].
  pose proof (pool_reachable_under_permit calls s Hrun) as Hu.
  assert (Hle : Forall (fun t => held t <= 1) (tasks s)).
  { eapply Forall_impl; [exact Hd|]. intros t. apply discipline_held. }
  unfold running, executing. rewrite (running_executing _ Hu), (executing_sum _ Hle).
  unfold _chunk_semaphore in *.
  split; [lia|]. split; [exact Hsum|]. split; [|split; [lia|split; [exact Hsum|]]].
  - eapply Forall_impl; [exact Hd|]. intros t Ht.
    simpl in Ht. split; [exact Ht|]. split; [eapply discipline_held; exact Ht|].
    intros Hnil. rewrite Hnil in Ht. exact Ht.
  - eapply Forall_impl; [exact Hu|]. intros t Ht.
    split; [exact Ht|apply in_body_iff_held; exact Ht].
Qed.

End Properties.

(** * The properties on concrete services *)

Import Scenario.

Lemma Qplus_comm_eq (x y : Q) : Qplus x y = Qplus y x.
Proof.
  destruct x as [a b], y as [c d]. unfold Qplus. simpl.
  f_equal; [apply Z.add_comm | apply Pos.mul_comm].
Qed.

(** The resolver on ["af+bf"]: the mean of the two voices is saved, and
    ["bf+af"] saves the same tensor. *)
Lemma combined_voice_mean_witness :
  PyStr.contains "+" "af+bf" = true /\
  2 <= length af_bf /\
  writable legacy_service (combined_path legacy_service "af+bf") = true /\
  exists t evs,
    _get_voice_path legacy_service "af+bf" voice_files =
      (Ok ("af+bf", combined_path legacy_service "af+bf"), evs,
       <[combined_path legacy_service "af+bf" := t]> voice_files) /\
    (forall i, data t !! i = elementwise_mean af_bf i) /\
    (forall u, In u af_bf -> shape t = shape u) /\
    (forall a b,
       "af+bf" = a +:+ "+" +:+ b ->
       PyStr.contains "+" a = false -> PyStr.contains "+" b = false ->
       writable legacy_service (combined_path legacy_service (b +:+ "+" +:+ a)) = true ->
       exists evs',
         _get_voice_path legacy_service (b +:+ "+" +:+ a) voice_files =
           (Ok (b +:+ "+" +:+ a, combined_path legacy_service (b +:+ "+" +:+ a)), evs',
            <[combined_path legacy_service (b +:+ "+" +:+ a) := t]> voice_files)).
Proof.
  split; [reflexivity|]. split; [simpl; lia|]. split; [reflexivity|].
  apply (combined_voice_mean legacy_service voice_files "af+bf" af_bf).
  - exact Qplus_comm_eq.
  - reflexivity.
  - repeat constructor.
    + exists "/voices/af.pt". split; [reflexivity|]. split; [discriminate|reflexivity].
    + exists "/voices/bf.pt". split; [reflexivity|]. split; [discriminate|reflexivity].
  - simpl. lia.
  - intros t u [<-|[<-|[]]] [<-|[<-|[]]]; reflexivity.
  - reflexivity.
Defined.

(** A stream of two segments with a format: the first unit is framed as
    first, the second is not, and the closing payload ends the stream. *)
Lemma first_and_last_framing_witness :
  format_of (Some "wav") = Some "wav" /\
  outcome (generate_audio_stream legacy_service "a.b" "af" 1%Q (Some "wav") voice_files)
    = None /\
  yielded (events (generate_audio_stream legacy_service "a.b" "af" 1%Q (Some "wav")
                     voice_files)) <> [] /\
  exists name path segs c ns0 u us later fin,
    (_get_voice_path legacy_service "af" voice_files).1.1 = Ok (name, path) /\
    smart_split legacy_service "a.b" = (segs, None) /\
    yielded (events (generate_audio_stream legacy_service "a.b" "af" 1%Q (Some "wav")
                       voice_files)) = (u :: us) ++ later ++ fin /\
    In (Invoke c) (events (generate_audio_stream legacy_service "a.b" "af" 1%Q
                             (Some "wav") voice_files)) /\
    cc_is_first c = true /\ cc_is_last c = false /\
    call_units legacy_service c ns0 = u :: us /\
    first_flag u = true /\
    Forall (fun v => first_flag v = false) (later ++ fin) /\
    Forall (fun v => last_flag v = false) ((u :: us) ++ later) /\
    fin = match (convert_audio legacy_service (Some (Vec [f0])) 24000 "wav" false true
                   (stream_segments legacy_service segs name path 1%Q (Some "wav") 0
                      (new_normalizer legacy_service)).2).1
          with
          | Returns (Some bs) => [VBytes (Encoded bs false true)]
          | _ => []
          end.
Proof.
  split; [reflexivity|]. split; [reflexivity|]. split; [discriminate|].
  apply (first_and_last_framing legacy_service "a.b" "af" 1%Q (Some "wav") "wav"
           voice_files).
  - reflexivity.
  - reflexivity.
  - discriminate.
Defined.

(** The empty text on a working service. *)
Lemma empty_text_yields_nothing_witness :
  smart_split legacy_service "" = ([], None) /\
  yielded (events (generate_audio_stream legacy_service "" "af" 1%Q (Some "wav")
                     voice_files)) = [] /\
  invocations (events (generate_audio_stream legacy_service "" "af" 1%Q (Some "wav")
                         voice_files)) = [] /\
  outcome (generate_audio_stream legacy_service "" "af" 1%Q (Some "wav") voice_files)
    = None /\
  (generate_audio legacy_service "" "af" 1%Q voice_files).1.1 =
    Raise (ValueError "No audio chunks were generated successfully").
Proof.
  split; [reflexivity|].
  destruct (empty_text_yields_nothing legacy_service "af" 1%Q (Some "wav") voice_files)
    as (Hy & Hi & _ & Hok); [reflexivity|].
  destruct (Hok (Legacy "cpu") "af" "/voices/af.pt") as [Hout Hraise];
    [reflexivity|reflexivity|].
  auto.
Defined.


(** One call entering its [async with]: it is invoked, then takes a permit. *)
Ltac enter i :=
  eapply rtc_l; [eapply (pool_step_at i); [reflexivity|apply ts_invoke]|];
  cbn [permits tasks];
  eapply rtc_l; [eapply (pool_step_at i); [reflexivity|apply ts_acquire]|];
  cbn [permits tasks].

(** Five calls at a time: four enter and are in their body, the fifth waits
    for a permit. *)
Lemma at_most_four_chunks_execute_witness :
  rtc pool_step (pool_init five_calls) four_inside /\
  executing four_inside = 4 /\
  permits four_inside = 0 /\
  Forall (fun t => permit_discipline (held t) (todo t) /\
                   held t <= 1 /\ (todo t = [] -> held t = 0))
         (tasks four_inside) /\
  running four_inside = 4 /\
  map in_body (tasks four_inside) = [true; true; true; true; false] /\
  Forall (fun t => under_permit (held t) (todo t) /\
                   (in_body t = true <-> held t = 1))
         (tasks four_inside).
Proof.
  assert (Hrun : rtc pool_step (pool_init five_calls) four_inside).
  { enter 0. enter 1. enter 2. enter 3. vm_compute. apply rtc_refl. }
  split; [exact Hrun|].
  destruct (at_most_four_chunks_execute five_calls four_inside Hrun)
    as (_ & _ & Hd & _ & _ & Hu).
  split; [reflexivity|]. split; [reflexivity|]. split; [exact Hd|].
  split; [reflexivity|]. split; [reflexivity|]. exact Hu.
Defined.

(** ** Where the specification and the service part *)

(** C2 as stated does not hold.  On the text-native backend the two chunks of
    the first segment are both encoded with [is_first_chunk=True]; and when
    the encoder fails to close the stream, no unit is encoded with
    [is_last_chunk=True].  Both streams end without an exception after
    emitting chunks. *)
Lemma one_first_one_last_fails :
  (outcome (generate_audio_stream kokoro_service "a" "af" 1%Q (Some "wav") voice_files)
     = None /\
   length (List.filter first_flag
             (yielded (events (generate_audio_stream kokoro_service "a" "af" 1%Q
                                 (Some "wav") voice_files)))) = 2 /\
   ~ one_first_one_last
       (yielded (events (generate_audio_stream kokoro_service "a" "af" 1%Q
                           (Some "wav") voice_files)))) /\
  (outcome (generate_audio_stream no_trailer_service "a" "af" 1%Q (Some "wav")
              voice_files) = None /\
   yielded (events (generate_audio_stream no_trailer_service "a" "af" 1%Q
                      (Some "wav") voice_files))
     = [VBytes (Encoded [Byte.x2a] true false)] /\
   ~ one_first_one_last
       (yielded (events (generate_audio_stream no_trailer_service "a" "af" 1%Q
                           (Some "wav") voice_files)))).
Proof.
  split.
  - split; [reflexivity|]. split; [reflexivity|].
    intros (Hfirst & _). vm_compute in Hfirst. discriminate.
  - split; [reflexivity|]. split; [reflexivity|].
    intros (_ & Hlast & _). vm_compute in Hlast. discriminate.
Qed.

(** IEEE-754 addition is commutative. *)
Lemma binary32_add_comm (x y : Float32.float32) : fadd x y = fadd y x.
Proof.
  destruct x as [[]|[]| |sx mx ex], y as [[]|[]| |sy my ey]; try reflexivity.
  cbn [fadd Float32.binary32 SpecFloat.SFadd].
  rewrite (Z.min_comm ex ey), Z.add_comm. reflexivity.
Qed.

(** C6 as stated does not hold for three names.  Float addition is
    commutative, and so two names can be swapped; it is not associative, and
    the resolver adds the embeddings in the order of the names.  In binary32,
    with the voices [2^60], [-2^60] and [1.0], the spec ["a+b+c"] adds
    [(2^60 + -2^60) + 1.0 = 1.0] and saves [1.0 / 3]; the spec ["a+c+b"] adds
    [(2^60 + 1.0) + -2^60 = 0.0], the [1.0] being lost to rounding, and saves
    [0.0].  Both specs resolve, and both name the same three voices. *)
Lemma three_names_order_matters :
  (forall x y : Float32.float32, fadd x y = fadd y x) /\
  combined_names "a+b+c" = ["a"; "b"; "c"] /\
  combined_names "a+c+b" = ["a"; "c"; "b"] /\
  (_get_voice_path Float32.three_voices "a+b+c" Float32.voice_files).1.1
    = Ok ("a+b+c", "/tmp/a+b+c.pt") /\
  (_get_voice_path Float32.three_voices "a+c+b" Float32.voice_files).1.1
    = Ok ("a+c+b", "/tmp/a+c+b.pt") /\
  (_get_voice_path Float32.three_voices "a+b+c" Float32.voice_files).2
    !! "/tmp/a+b+c.pt" = Some (Tensor [1] [fdiv_nat Float32.one 3]) /\
  (_get_voice_path Float32.three_voices "a+c+b" Float32.voice_files).2
    !! "/tmp/a+c+b.pt" = Some (Tensor [1] [f0]) /\
  (_get_voice_path Float32.three_voices "a+b+c" Float32.voice_files).2
    !! "/tmp/a+b+c.pt" <>
  (_get_voice_path Float32.three_voices "a+c+b" Float32.voice_files).2
    !! "/tmp/a+c+b.pt".
Proof.
  split; [exact binary32_add_comm|].
  repeat split; try (vm_compute; reflexivity).
  vm_compute. discriminate.
Qed.


(** C3 on a one-segment text.  Streamed without a format, the service yields
    the samples of the segment and the empty closing array, which concatenate
    to the samples.  [generate_audio] streams with the format ["wav"],
    collects the payload of the segment and the closing payload, and raises
    [AttributeError] when it asks a payload for its [ndim]. *)
Lemma generate_audio_is_not_the_raw_stream :
  yielded (events (generate_audio_stream legacy_service "a" "af" 1%Q None voice_files))
    = [VArray (Vec [inject_Z 97]); VArray (Vec [])] /\
  np_concatenate
    (yielded (events (generate_audio_stream legacy_service "a" "af" 1%Q None voice_files)))
    = VArray (Vec [inject_Z 97]) /\
  (generate_audio legacy_service "a" "af" 1%Q voice_files).1.1
    = Raise (AttributeError "'bytes' object has no attribute 'ndim'").
Proof. repeat split; reflexivity. Qed.

(** * Further properties of the service *)

Section MoreProperties.

Context {F : Type} `{FloatOps F}.
Context {nstate : Type}.

Implicit Types (E : env F nstate) (c : chunk_call F) (ns : nstate).
Implicit Types (fs : gmap string (tensor F)) (evs : list (event F)).

(** What a stream shows, case by case: a failed set-up, a segmenter that
    raises after some segments, or a loop that ends and is finalized. *)
Lemma stream_spec E (text voice : string) (speed : F) (fmt : option string) fs :
  let r := generate_audio_stream E text voice speed fmt fs in
  match call ModelManager (get_backend E), _get_voice_path E voice fs with
  | Raise e, _ =>
      yielded (events r) = [] /\ invocations (events r) = [] /\
      outcome r = Some e /\ files r = fs
  | Ok _, (Raise e, _, fs') =>
      yielded (events r) = [] /\ invocations (events r) = [] /\
      outcome r = Some e /\ files r = fs'
  | Ok _, (Ok (name, path), _, fs') =>
      let l := stream_segments E (smart_split E text).1 name path speed fmt 0
                               (new_normalizer E) in
      files r = fs' /\
      match (smart_split E text).2 with
      | Some m =>
          yielded (events r) = yielded l.1.1 /\
          invocations (events r) = invocations l.1.1 /\
          outcome r = Some (CollabError TextProcessor m)
      | None =>
          yielded (events r)
            = yielded l.1.1 ++ yielded (finalize E name path speed fmt l.1.2 l.2).1 /\
          invocations (events r)
            = invocations l.1.1
              ++ invocations (finalize E name path speed fmt l.1.2 l.2).1 /\
          outcome r = None
      end
  end.
Proof.
  cbv zeta. unfold generate_audio_stream.
  destruct (call ModelManager (get_backend E)) as [b|e]; [|simpl; auto].
  destruct (resolver_logs E voice fs) as [Hri Hry].
  destruct (_get_voice_path E voice fs) as [[[[name path]|e] evs0] fs'];
    simpl in Hri, Hry.
  - destruct (smart_split E text) as [segs stop]. simpl.
    destruct (stream_segments E segs name path speed fmt 0 (new_normalizer E))
      as [[evs2 n] ns]. simpl.
    destruct stop as [m|]; simpl.
    + rewrite !yielded_app, !invocations_app, Hri, Hry. simpl.
      now rewrite !app_nil_r.
    + destruct (finalize E name path speed fmt n ns) as [evs3 ns']. simpl.
      rewrite !yielded_app, !invocations_app, Hri, Hry. auto.
  - simpl. rewrite yielded_app, invocations_app, Hri, Hry. auto.
Qed.

(** A segment that is passed over does nothing but log. *)
Lemma passed_over_body E (seg : string * list Z) (name path : string) (speed : F)
    (fmt : option string) (fi : bool) ns :
  passed_over E seg name speed ->
  yielded (process_chunk_body E (ChunkCall seg.1 seg.2 name path speed fmt fi false) ns).1.1
    = [] /\
  (process_chunk_body E (ChunkCall seg.1 seg.2 name path speed fmt fi false) ns).2 = ns.
Proof.
  unfold process_chunk_body. simpl. intros [[-> ->]|Hleg].
  - simpl. auto.
  - destruct Hleg as (device & vt & Hb & Hl & Hg).
    destruct (bool_decide (seg.2 = []) && negb (PyStr.truthy seg.1)); [auto|].
    rewrite Hb. simpl. rewrite Hl. simpl.
    destruct Hg as [-> | ->]; simpl; auto.
Qed.

Lemma stream_segments_pass E (seg : string * list Z) (rest : list (string * list Z))
    (name path : string) (speed : F) (fmt : option string) (n : nat) ns :
  passed_over E seg name speed ->
  let r := stream_segments E (seg :: rest) name path speed fmt n ns in
  let r' := stream_segments E rest name path speed fmt n ns in
  yielded r.1.1 = yielded r'.1.1 /\ r.1.2 = r'.1.2 /\ r.2 = r'.2.
Proof.
  intros Hp. destruct seg as [chunk_text tokens]. cbv zeta.
  rewrite stream_segments_cons. cbv zeta. simpl.
  set (c := ChunkCall chunk_text tokens name path speed fmt (n =? 0)%nat false).
  destruct (passed_over_body E (chunk_text, tokens) name path speed fmt (n =? 0)%nat ns Hp)
    as [Hy Hns]. simpl in Hy, Hns. fold c in Hy, Hns.
  destruct (relay_segment_spec chunk_text (_process_chunk E c ns).1.1 n) as (Ry & _ & _).
  unfold call_units. rewrite yielded_app, Ry, process_chunk_yielded, Hy, Hns.
  simpl. rewrite Nat.add_0_r. auto.
Qed.

(** The resolver returns the spec it was given as the voice name. *)
Lemma resolver_name E (voice : string) fs (name path : string) :
  (_get_voice_path E voice fs).1.1 = Ok (name, path) -> name = voice.
Proof.
  rewrite get_voice_path_result. unfold get_voice_path_body.
  destruct (PyStr.contains "+" voice).
  - destruct (length (combined_names voice) <? 2)%nat; [discriminate|].
    destruct (load_voices E fs (combined_names voice)) as [[ts|e] evs];
      [|discriminate].
    destruct (torch_stack ts) as [st|e]; [|discriminate].
    unfold torch_save. destruct (writable E _); simpl; [|discriminate].
    now intros [= <- _].
  - destruct (call VoiceManager (get_voice_path E voice)) as [p|e]; [|discriminate].
    destruct (found_path p); simpl; [|discriminate]. now intros [= <- _].
Qed.

(** ** Segments that are passed over *)

(** X1.  A segment that is empty, or for which the legacy model returns
    [None] or an array of length zero, leaves no trace in the audio: a text
    whose segments are [s1 ++ seg :: s2] streams the same units, ends the same
    way and leaves the same files as a text whose segments are [s1 ++ s2]. *)
Theorem passed_over_segment_is_transparent E (text text' voice : string) (speed : F)
    (fmt : option string) fs (s1 s2 : list (string * list Z)) (seg : string * list Z) :
  smart_split E text = (s1 ++ seg :: s2, None) ->
  smart_split E text' = (s1 ++ s2, None) ->
  passed_over E seg voice speed ->
  let r := generate_audio_stream E text voice speed fmt fs in
  let r' := generate_audio_stream E text' voice speed fmt fs in
  yielded (events r) = yielded (events r') /\
  outcome r = outcome r' /\
  files r = files r'.
Proof.
  intros Hs Hs' Hp. cbv zeta.
  pose proof (stream_spec E text voice speed fmt fs) as Hr.
  pose proof (stream_spec E text' voice speed fmt fs) as Hr'.
  cbv zeta in Hr, Hr'.
  destruct (call ModelManager (get_backend E)) as [b|e].
  2:{ destruct Hr as (-> & _ & -> & ->), Hr' as (-> & _ & -> & ->). auto. }
  pose proof (resolver_name E voice fs) as Hname.
  destruct (_get_voice_path E voice fs) as [[[[name path]|e] evs0] fs'].
  2:{ destruct Hr as (-> & _ & -> & ->), Hr' as (-> & _ & -> & ->). auto. }
  specialize (Hname name path eq_refl). subst name.
  rewrite Hs in Hr. rewrite Hs' in Hr'. simpl in Hr, Hr'.
  destruct Hr as (-> & -> & _ & ->), Hr' as (-> & -> & _ & ->).
  rewrite !stream_segments_app. cbv zeta. cbn [fst snd].
  set (r1 := stream_segments E s1 voice path speed fmt 0 (new_normalizer E)).
  destruct (stream_segments_pass E seg s2 voice path speed fmt r1.1.2 r1.2 Hp)
    as (Hy & Hn & Hns).
  rewrite !yielded_app, Hy, Hn, Hns. auto.
Qed.

(** ** How a stream can end *)

(** A stream never emits [None]. *)
Lemma stream_no_none E (text voice : string) (speed : F) (fmt : option string) fs :
  Forall (fun v => is_none v = false)
         (yielded (events (generate_audio_stream E text voice speed fmt fs))).
Proof.
  destruct (stream_observed E text voice speed fmt fs)
    as [[-> _]|(name & path & segs & Hobs)]; [constructor|].
  cbv zeta in Hobs.
  assert (Hloop : Forall (fun v => is_none v = false)
            (yielded (stream_segments E segs name path speed fmt 0
                        (new_normalizer E)).1.1)).
  { eapply Forall_impl; [apply stream_segments_inv|]. now intros v (Hv & _). }
  destruct Hobs as [[-> _]|[-> _]]; [exact Hloop|].
  apply Forall_app. split; [exact Hloop|].
  destruct (finalize_spec E name path speed fmt
              (stream_segments E segs name path speed fmt 0 (new_normalizer E)).1.2
              (stream_segments E segs name path speed fmt 0 (new_normalizer E)).2)
    as (-> & _ & _).
  destruct (0 <? _)%nat; [|constructor].
  eapply Forall_impl; [apply call_units_framed|]. now intros v (Hv & _).
Qed.

(** With a format set, a stream emits payloads only. *)
Lemma stream_units_bytes E (text voice : string) (speed : F) (fmt : option string) fs :
  format_of fmt <> None ->
  Forall (fun v => is_bytes v = true)
         (yielded (events (generate_audio_stream E text voice speed fmt fs))).
Proof.
  intros Hfmt.
  destruct (stream_observed E text voice speed fmt fs)
    as [[-> _]|(name & path & segs & Hobs)]; [constructor|].
  cbv zeta in Hobs.
  assert (Hloop : Forall (fun v => is_bytes v = true)
            (yielded (stream_segments E segs name path speed fmt 0
                        (new_normalizer E)).1.1)).
  { eapply Forall_impl; [apply stream_segments_inv|]. intros v (_ & _ & Hb & _). auto. }
  destruct Hobs as [[-> _]|[-> _]]; [exact Hloop|].
  apply Forall_app. split; [exact Hloop|].
  destruct (finalize_spec E name path speed fmt
              (stream_segments E segs name path speed fmt 0 (new_normalizer E)).1.2
              (stream_segments E segs name path speed fmt 0 (new_normalizer E)).2)
    as (-> & _ & _).
  destruct (0 <? _)%nat; [|constructor].
  rewrite final_call_units. destruct (format_of fmt) as [f|]; [|congruence].
  match goal with
  | |- context [match ?x with Returns _ => _ | Fails _ => _ end] =>
      destruct x as [[bs|]|m]
  end; repeat constructor.
Qed.

(** What [generate_audio] makes of the stream it runs. *)
Lemma generate_audio_result E (text voice : string) (speed : F) fs :
  let r := generate_audio_stream E text voice speed (Some "wav") fs in
  (generate_audio E text voice speed fs).1.1 =
  match outcome r with
  | Some e => Raise e
  | None => combine_chunks (yielded (events r))
  end.
Proof.
  cbv zeta. unfold generate_audio, default_output_format.
  set (r := generate_audio_stream E text voice speed (Some "wav") fs).
  rewrite (filter_all (fun v => negb (is_none v)) (yielded (events r))).
  2:{ eapply Forall_impl; [apply stream_no_none|]. intros v ->. reflexivity. }
  destruct (outcome r) as [e|]; [reflexivity|].
  destruct (combine_chunks (yielded (events r))); reflexivity.
Qed.

(** X2.  [generate_audio] has four outcomes, decided by the stream it runs
    with the format ["wav"]: the exception of the stream when it ends with
    one; otherwise [ValueError] when the stream emitted nothing, the unit
    itself when it emitted exactly one, and [AttributeError] (payloads have no
    [ndim]) when it emitted two or more.  In particular it returns only for
    one-unit streams. *)
Theorem generate_audio_cases E (text voice : string) (speed : F) fs :
  let r := generate_audio_stream E text voice speed (Some "wav") fs in
  let g := (generate_audio E text voice speed fs).1.1 in
  (forall e, outcome r = Some e -> g = Raise e) /\
  (outcome r = None ->
   match yielded (events r) with
   | [] => g = Raise (ValueError "No audio chunks were generated successfully")
   | [u] => g = Ok u
   | _ :: _ :: _ => g = Raise (AttributeError "'bytes' object has no attribute 'ndim'")
   end) /\
  (forall u, g = Ok u <-> outcome r = None /\ yielded (events r) = [u]).
Proof.
  cbv zeta. rewrite generate_audio_result. cbv zeta.
  pose proof (stream_units_bytes E text voice speed (Some "wav") fs) as Hb.
  set (r := generate_audio_stream E text voice speed (Some "wav") fs) in *.
  assert (Hcases : match yielded (events r) with
                   | [] => combine_chunks (yielded (events r))
                           = Raise (ValueError "No audio chunks were generated successfully")
                   | [u] => combine_chunks (yielded (events r)) = Ok u
                   | _ :: _ :: _ =>
                       combine_chunks (yielded (events r))
                       = Raise (AttributeError "'bytes' object has no attribute 'ndim'")
                   end).
  { specialize (Hb ltac:(discriminate)).
    destruct (yielded (events r)) as [|u [|u' us]]; try reflexivity.
    apply Forall_cons in Hb as [Hu _].
    destruct u as [|a|b]; simpl in *; try discriminate. reflexivity. }
  split; [|split].
  - intros e ->. reflexivity.
  - intros ->. exact Hcases.
  - intros u. destruct (outcome r) as [e|].
    + split; [discriminate|]. intros [? _]. discriminate.
    + destruct (yielded (events r)) as [|v [|v' vs]]; rewrite Hcases; split;
        try discriminate; try (intros [_ ?]; discriminate).
      * intros [= ->]. auto.
      * intros [_ [= ->]]. reflexivity.
Qed.

(** X3.  When the set-up of a stream fails (no backend, or the voice does not
    resolve), the stream raises that exception before anything else happens:
    no [_process_chunk] call is made and no unit is emitted, the failure is
    logged, and [generate_audio] raises the same exception. *)
Theorem setup_failure_propagates E (text voice : string) (speed : F)
    (fmt : option string) fs (e : exn) :
  call ModelManager (get_backend E) = Raise e \/
  ((exists b, get_backend E = Returns b) /\ (_get_voice_path E voice fs).1.1 = Raise e) ->
  let r := generate_audio_stream E text voice speed fmt fs in
  outcome r = Some e /\
  yielded (events r) = [] /\ invocations (events r) = [] /\
  last (events r) = Some (Log ERROR ("Error in phoneme audio generation: " +:+ str_exn e)) /\
  (generate_audio E text voice speed fs).1.1 = Raise e.
Proof.
  intros Hfail. cbv zeta.
  assert (Hall : forall fmt',
    let r := generate_audio_stream E text voice speed fmt' fs in
    outcome r = Some e /\ yielded (events r) = [] /\ invocations (events r) = [] /\
    last (events r) = Some (Log ERROR ("Error in phoneme audio generation: "
                                       +:+ str_exn e))).
  { intros fmt'. cbv zeta.
    pose proof (stream_spec E text voice speed fmt' fs) as Hr. cbv zeta in Hr.
    unfold generate_audio_stream in *.
    destruct Hfail as [Hb|[[b Hb] Hv]].
    - rewrite Hb in *. destruct Hr as (? & ? & ? & _). simpl. auto.
    - rewrite Hb in *. simpl in *.
      destruct (_get_voice_path E voice fs) as [[res evs0] fs']. simpl in Hv.
      subst res. destruct Hr as (? & ? & ? & _).
      repeat split; auto. simpl. apply last_snoc. }
  destruct (Hall fmt) as (Ho & Hy & Hi & Hl).
  destruct (Hall (Some "wav")) as (Ho' & _).
  repeat split; auto.
  rewrite generate_audio_result. cbv zeta. rewrite Ho'. reflexivity.
Qed.

(** X4.  When the segmenter raises after yielding some segments, the units of
    those segments have been emitted, but the stream is not finalized: no
    closing call is made, no unit is framed as last, and the stream (and with
    it [generate_audio], whatever was collected) ends with the segmenter's
    exception. *)
Theorem segmenter_failure_ends_stream E (text voice : string) (speed : F)
    (fmt : option string) fs b (name path : string)
    (segs : list (string * list Z)) (m : string) :
  get_backend E = Returns b ->
  (_get_voice_path E voice fs).1.1 = Ok (name, path) ->
  smart_split E text = (segs, Some m) ->
  let r := generate_audio_stream E text voice speed fmt fs in
  outcome r = Some (CollabError TextProcessor m) /\
  yielded (events r)
    = yielded (stream_segments E segs name path speed fmt 0 (new_normalizer E)).1.1 /\
  Forall (fun c => cc_is_last c = false) (invocations (events r)) /\
  Forall (fun v => last_flag v = false) (yielded (events r)) /\
  (generate_audio E text voice speed fs).1.1 = Raise (CollabError TextProcessor m).
Proof.
  intros Hb Hv Hs. cbv zeta.
  assert (Hall : forall fmt',
    let r := generate_audio_stream E text voice speed fmt' fs in
    outcome r = Some (CollabError TextProcessor m) /\
    yielded (events r)
      = yielded (stream_segments E segs name path speed fmt' 0 (new_normalizer E)).1.1 /\
    invocations (events r)
      = invocations (stream_segments E segs name path speed fmt' 0
                       (new_normalizer E)).1.1).
  { intros fmt'. cbv zeta.
    pose proof (stream_spec E text voice speed fmt' fs) as Hr. cbv zeta in Hr.
    rewrite Hb in Hr. simpl in Hr.
    destruct (_get_voice_path E voice fs) as [[res evs0] fs']. simpl in Hv.
    subst res. rewrite Hs in Hr. simpl in Hr. tauto. }
  destruct (Hall fmt) as (Ho & Hy & Hi).
  destruct (Hall (Some "wav")) as (Ho' & _).
  destruct (stream_segments_inv E segs name path speed fmt 0 (new_normalizer E))
    as (_ & Hlast & Hflags).
  rewrite Hy, Hi. repeat split; auto.
  - eapply Forall_impl; [exact Hflags|]. now intros v (_ & Hl & _).
  - rewrite generate_audio_result. cbv zeta. rewrite Ho'. reflexivity.
Qed.

(** ** The output format *)

Lemma emit_chunks_format E (chunks : list (option (ndarray F))) (fmt fmt' : option string)
    (fi la : bool) ns :
  format_of fmt = format_of fmt' ->
  emit_chunks E chunks fmt fi la ns = emit_chunks E chunks fmt' fi la ns.
Proof.
  intros Hf. revert ns. induction chunks as [|a chunks IH]; intros ns; simpl;
    [reflexivity|].
  unfold emit_chunk. rewrite Hf.
  destruct (format_of fmt') as [f|].
  - destruct (convert_audio E a 24000 f fi la ns) as [r ns1].
    destruct (call AudioService r); now rewrite IH.
  - now rewrite IH.
Qed.

(** A call looks at its format only to see whether one is set, and which. *)
Lemma process_chunk_body_format E (chunk_text : string) (tokens : list Z)
    (name path : string) (speed : F) (fmt fmt' : option string) (fi la : bool) ns :
  format_of fmt = format_of fmt' ->
  process_chunk_body E (ChunkCall chunk_text tokens name path speed fmt fi la) ns =
  process_chunk_body E (ChunkCall chunk_text tokens name path speed fmt' fi la) ns.
Proof.
  intros Hf. unfold process_chunk_body. simpl. rewrite Hf.
  destruct la; [reflexivity|].
  destruct (_ && _); [reflexivity|].
  destruct (call ModelManager (get_backend E)) as [[|device]|e]; [| |reflexivity].
  - destruct (generate_stream E chunk_text (name, path) speed) as [chunks stop].
    now rewrite (emit_chunks_format E chunks fmt fmt' fi false ns Hf).
  - destruct (call VoiceManager (load_voice E name device)) as [vt|e]; [|reflexivity].
    destruct (call ModelManager (generate_tokens E tokens vt speed)) as [[a|]|e];
      try reflexivity.
    destruct (len a) as [[|k]|e]; try reflexivity.
    unfold emit_chunk. now rewrite Hf.
Qed.

Lemma call_units_format E (chunk_text : string) (tokens : list Z)
    (name path : string) (speed : F) (fmt fmt' : option string) (fi la : bool) ns :
  format_of fmt = format_of fmt' ->
  call_units E (ChunkCall chunk_text tokens name path speed fmt fi la) ns
    = call_units E (ChunkCall chunk_text tokens name path speed fmt' fi la) ns /\
  (process_chunk_body E (ChunkCall chunk_text tokens name path speed fmt fi la) ns).2
    = (process_chunk_body E (ChunkCall chunk_text tokens name path speed fmt' fi la) ns).2.
Proof.
  intros Hf. unfold call_units. rewrite !process_chunk_yielded.
  now rewrite (process_chunk_body_format E chunk_text tokens name path speed
                 fmt fmt' fi la ns Hf).
Qed.

Lemma stream_segments_yielded E (chunk_text : string) (tokens : list Z)
    (rest : list (string * list Z)) (name path : string) (speed : F)
    (fmt : option string) (n : nat) ns :
  let c := ChunkCall chunk_text tokens name path speed fmt (n =? 0)%nat false in
  yielded (stream_segments E ((chunk_text, tokens) :: rest) name path speed fmt n ns).1.1
  = call_units E c ns
    ++ yielded (stream_segments E rest name path speed fmt
                  (n + length (call_units E c ns)) (process_chunk_body E c ns).2).1.1.
Proof.
  cbv zeta. rewrite stream_segments_cons. cbv zeta. cbn [fst snd].
  rewrite yielded_app.
  destruct (relay_segment_spec chunk_text
    (_process_chunk E (ChunkCall chunk_text tokens name path speed fmt (n =? 0)%nat false)
                    ns).1.1 n) as (-> & _ & _).
  reflexivity.
Qed.

Lemma stream_segments_format E (segs : list (string * list Z)) (name path : string)
    (speed : F) (fmt fmt' : option string) (n : nat) ns :
  format_of fmt = format_of fmt' ->
  let r := stream_segments E segs name path speed fmt n ns in
  let r' := stream_segments E segs name path speed fmt' n ns in
  yielded r.1.1 = yielded r'.1.1 /\ r.1.2 = r'.1.2 /\ r.2 = r'.2.
Proof.
  intros Hf. revert n ns. induction segs as [|[chunk_text tokens] segs IH]; intros n ns.
  - simpl. auto.
  - cbv zeta. rewrite !stream_segments_yielded. cbv zeta.
    rewrite !stream_segments_cons. cbv zeta. cbn [fst snd].
    destruct (call_units_format E chunk_text tokens name path speed fmt fmt'
                (n =? 0)%nat false ns Hf) as [-> ->].
    destruct (IH (n + length (call_units E
                (ChunkCall chunk_text tokens name path speed fmt' (n =? 0)%nat false) ns))
                 (process_chunk_body E
                (ChunkCall chunk_text tokens name path speed fmt' (n =? 0)%nat false) ns).2)
      as (-> & -> & ->).
    auto.
Qed.

(** X5.  The format matters only through its truth value and, when true, its
    name: two formats that agree there (such as [None] and the empty string,
    both of which mean raw audio) give streams with the same units, the same
    outcome and the same files. *)
Theorem format_truth_value E (text voice : string) (speed : F)
    (fmt fmt' : option string) fs :
  format_of fmt = format_of fmt' ->
  let r := generate_audio_stream E text voice speed fmt fs in
  let r' := generate_audio_stream E text voice speed fmt' fs in
  yielded (events r) = yielded (events r') /\
  outcome r = outcome r' /\
  files r = files r'.
Proof.
  intros Hf. cbv zeta.
  pose proof (stream_spec E text voice speed fmt fs) as Hr.
  pose proof (stream_spec E text voice speed fmt' fs) as Hr'.
  cbv zeta in Hr, Hr'.
  destruct (call ModelManager (get_backend E)) as [b|e].
  2:{ destruct Hr as (-> & _ & -> & ->), Hr' as (-> & _ & -> & ->). auto. }
  destruct (_get_voice_path E voice fs) as [[[[name path]|e] evs0] fs'].
  2:{ destruct Hr as (-> & _ & -> & ->), Hr' as (-> & _ & -> & ->). auto. }
  destruct Hr as (-> & Hr), Hr' as (-> & Hr').
  destruct (stream_segments_format E (smart_split E text).1 name path speed fmt fmt' 0
              (new_normalizer E) Hf) as (Hy & Hn & Hns).
  destruct (smart_split E text).2 as [m|].
  - destruct Hr as (-> & _ & ->), Hr' as (-> & _ & ->). auto.
  - destruct Hr as (-> & _ & ->), Hr' as (-> & _ & ->).
    rewrite Hy, Hn, Hns.
    destruct (finalize_spec E name path speed fmt
                (stream_segments E (smart_split E text).1 name path speed fmt' 0
                   (new_normalizer E)).1.2
                (stream_segments E (smart_split E text).1 name path speed fmt' 0
                   (new_normalizer E)).2) as (-> & _ & _).
    destruct (finalize_spec E name path speed fmt'
                (stream_segments E (smart_split E text).1 name path speed fmt' 0
                   (new_normalizer E)).1.2
                (stream_segments E (smart_split E text).1 name path speed fmt' 0
                   (new_normalizer E)).2) as (-> & _ & _).
    rewrite !final_call_units, Hf. auto.
Qed.

(** ** Raw audio *)

Lemma load_voices_encoder E conv fresh fs (voices : list string) :
  load_voices (with_encoder E conv fresh) fs voices = load_voices E fs voices.
Proof.
  induction voices as [|v voices IH]; simpl; [reflexivity|]. now rewrite IH.
Qed.

Lemma resolver_encoder E conv fresh (voice : string) fs :
  _get_voice_path (with_encoder E conv fresh) voice fs = _get_voice_path E voice fs.
Proof.
  unfold _get_voice_path, get_voice_path_body.
  rewrite load_voices_encoder. reflexivity.
Qed.

Lemma emit_chunks_raw E conv fresh (chunks : list (option (ndarray F)))
    (fmt : option string) (fi la : bool) ns ns' :
  format_of fmt = None ->
  (emit_chunks (with_encoder E conv fresh) chunks fmt fi la ns').1
    = (emit_chunks E chunks fmt fi la ns).1 /\
  (emit_chunks (with_encoder E conv fresh) chunks fmt fi la ns').2 = ns' /\
  (emit_chunks E chunks fmt fi la ns).2 = ns.
Proof.
  intros Hf. induction chunks as [|a chunks (IH1 & IH2 & IH3)]; simpl; [auto|].
  unfold emit_chunk. rewrite Hf.
  destruct (emit_chunks (with_encoder E conv fresh) chunks fmt fi la ns').
  destruct (emit_chunks E chunks fmt fi la ns). simpl in *. subst. auto.
Qed.

(** Without a format a call neither reads nor changes the normalizer, and
    does not depend on the encoder. *)
Lemma process_chunk_body_raw E conv fresh c ns ns' :
  format_of (cc_format c) = None ->
  (process_chunk_body (with_encoder E conv fresh) c ns').1
    = (process_chunk_body E c ns).1 /\
  (process_chunk_body (with_encoder E conv fresh) c ns').2 = ns' /\
  (process_chunk_body E c ns).2 = ns.
Proof.
  intros Hf. unfold process_chunk_body. rewrite Hf. cbn [get_backend with_encoder
    generate_stream generate_tokens load_voice].
  destruct (cc_is_last c); [auto|].
  destruct (_ && _); [auto|].
  destruct (call ModelManager (get_backend E)) as [[|device]|e]; [| |auto].
  - destruct (generate_stream E (cc_text c) (cc_voice_name c, cc_voice_path c) (cc_speed c))
      as [chunks stop].
    destruct (emit_chunks_raw E conv fresh chunks (cc_format c) (cc_is_first c) false
                ns ns' Hf) as (H1 & H2 & H3).
    destruct (emit_chunks (with_encoder E conv fresh) chunks _ _ _ ns').
    destruct (emit_chunks E chunks _ _ _ ns). simpl in *. subst. auto.
  - destruct (call VoiceManager (load_voice E (cc_voice_name c) device)) as [vt|e];
      [|auto].
    destruct (call ModelManager (generate_tokens E (cc_tokens c) vt (cc_speed c)))
      as [[a|]|e]; auto.
    destruct (len a) as [[|k]|e]; auto.
    unfold emit_chunk. rewrite Hf. auto.
Qed.

Lemma process_chunk_raw E conv fresh c ns ns' :
  format_of (cc_format c) = None ->
  (_process_chunk (with_encoder E conv fresh) c ns').1 = (_process_chunk E c ns).1 /\
  (_process_chunk (with_encoder E conv fresh) c ns').2 = ns' /\
  (_process_chunk E c ns).2 = ns.
Proof.
  intros Hf. rewrite !process_chunk_unfold.
  destruct (process_chunk_body_raw E conv fresh c ns ns' Hf) as (H1 & H2 & H3).
  cbn [fst snd]. rewrite H2, H3.
  replace (process_chunk_body (with_encoder E conv fresh) c ns').1.1
    with (process_chunk_body E c ns).1.1 by now rewrite H1.
  replace (process_chunk_body (with_encoder E conv fresh) c ns').1.2
    with (process_chunk_body E c ns).1.2 by now rewrite H1.
  auto.
Qed.

Lemma stream_segments_raw E conv fresh (segs : list (string * list Z))
    (name path : string) (speed : F) (fmt : option string) (n : nat) ns ns' :
  format_of fmt = None ->
  (stream_segments (with_encoder E conv fresh) segs name path speed fmt n ns').1
    = (stream_segments E segs name path speed fmt n ns).1 /\
  (stream_segments (with_encoder E conv fresh) segs name path speed fmt n ns').2 = ns' /\
  (stream_segments E segs name path speed fmt n ns).2 = ns.
Proof.
  intros Hf. revert n. induction segs as [|[chunk_text tokens] segs IH]; intros n.
  - simpl. auto.
  - rewrite !stream_segments_cons. cbv zeta. cbn [fst snd].
    set (c := ChunkCall chunk_text tokens name path speed fmt (n =? 0)%nat false).
    destruct (process_chunk_raw E conv fresh c ns ns' Hf) as (H1 & H2 & H3).
    destruct (process_chunk_body_raw E conv fresh c ns ns' Hf) as (_ & B2 & B3).
    unfold call_units. rewrite H1, B2, B3.
    destruct (IH (n + length (List.filter (fun v => negb (is_none v))
                                (yielded (_process_chunk E c ns).1.1))))
      as (I1 & I2 & I3).
    rewrite I1, I2, I3. auto.
Qed.

Lemma finalize_raw E conv fresh (name path : string) (speed : F) (fmt : option string)
    (n : nat) ns ns' :
  format_of fmt = None ->
  (finalize (with_encoder E conv fresh) name path speed fmt n ns').1
    = (finalize E name path speed fmt n ns).1.
Proof.
  intros Hf. unfold finalize. destruct (0 <? n)%nat; [|reflexivity].
  destruct (process_chunk_raw E conv fresh (final_call name path speed fmt) ns ns' Hf)
    as (H1 & _ & _).
  destruct (_process_chunk (with_encoder E conv fresh) _ ns') as [[evs stop] ns1].
  destruct (_process_chunk E _ ns) as [[evs' stop'] ns2].
  simpl in H1. injection H1 as -> ->.
  destruct (contain "Failed to finalize audio stream: " stop'). reflexivity.
Qed.

(** X6.  Without a format (raw audio) the stream does not use the encoder or
    the normalizer at all: whatever encoder and fresh normalizer the service
    is given, the run is the same, event for event. *)
Theorem raw_stream_ignores_encoder E conv fresh (text voice : string) (speed : F)
    (fmt : option string) fs :
  format_of fmt = None ->
  generate_audio_stream (with_encoder E conv fresh) text voice speed fmt fs
  = generate_audio_stream E text voice speed fmt fs.
Proof.
  intros Hf. unfold generate_audio_stream.
  rewrite resolver_encoder.
  cbn [get_backend smart_split new_normalizer with_encoder].
  destruct (call ModelManager (get_backend E)) as [b|e]; [|reflexivity].
  destruct (_get_voice_path E voice fs) as [[[[name path]|e] evs0] fs'];
    [|reflexivity].
  destruct (smart_split E text) as [segs stop].
  destruct (stream_segments_raw E conv fresh segs name path speed fmt 0
              (new_normalizer E) fresh Hf) as (H1 & H2 & H3).
  destruct (stream_segments (with_encoder E conv fresh) segs name path speed fmt 0 fresh)
    as [[evs2 n] ns2].
  destruct (stream_segments E segs name path speed fmt 0 (new_normalizer E))
    as [[evs2' n'] ns2'].
  simpl in H1, H2, H3. injection H1 as -> ->. subst.
  destruct (stopped TextProcessor stop); [reflexivity|].
  pose proof (finalize_raw E conv fresh name path speed fmt n' (new_normalizer E) fresh Hf)
    as Hfin.
  destruct (finalize (with_encoder E conv fresh) name path speed fmt n' fresh).
  destruct (finalize E name path speed fmt n' (new_normalizer E)).
  simpl in Hfin. subst. reflexivity.
Qed.

Lemma stream_segments_arrays E (segs : list (string * list Z)) (name path : string)
    (speed : F) (fmt : option string) (n : nat) ns :
  format_of fmt = None ->
  Forall (fun v => is_array v = true)
         (yielded (stream_segments E segs name path speed fmt n ns).1.1).
Proof.
  intros Hf. revert n ns. induction segs as [|[chunk_text tokens] segs IH]; intros n ns.
  - constructor.
  - rewrite stream_segments_yielded. cbv zeta. apply Forall_app. split; [|apply IH].
    eapply Forall_impl; [apply call_units_framed|].
    intros [|a|b] [Hn Hfr]; simpl in *; [discriminate|reflexivity|].
    destruct Hfr as [Hne _]. congruence.
Qed.

(** X7.  Without a format every unit of a stream is an array of samples.  A
    stream that ends without an exception after emitting something ends with
    the empty array, the closing marker, which adds no sample: concatenating
    the units gives what concatenating the units before the marker gives. *)
Theorem raw_stream_units E (text voice : string) (speed : F)
    (fmt : option string) fs :
  format_of fmt = None ->
  let r := generate_audio_stream E text voice speed fmt fs in
  Forall (fun v => is_array v = true) (yielded (events r)) /\
  (outcome r = None -> yielded (events r) <> [] ->
   exists body,
     body <> [] /\
     yielded (events r) = body ++ [VArray (Vec [])] /\
     np_concatenate (yielded (events r)) = np_concatenate body).
Proof.
  intros Hf. cbv zeta.
  pose proof (stream_spec E text voice speed fmt fs) as Hr. cbv zeta in Hr.
  destruct (call ModelManager (get_backend E)) as [b|e].
  2:{ destruct Hr as (-> & _ & -> & _). split; [constructor|discriminate]. }
  destruct (_get_voice_path E voice fs) as [[[[name path]|e] evs0] fs'].
  2:{ destruct Hr as (-> & _ & -> & _). split; [constructor|discriminate]. }
  destruct Hr as (_ & Hr).
  pose proof (stream_segments_arrays E (smart_split E text).1 name path speed fmt 0
                (new_normalizer E) Hf) as Harr.
  destruct (stream_segments_inv E (smart_split E text).1 name path speed fmt 0
              (new_normalizer E)) as (Hn & _ & _).
  set (l := stream_segments E (smart_split E text).1 name path speed fmt 0
                            (new_normalizer E)) in *.
  destruct (smart_split E text).2 as [m|].
  - destruct Hr as (-> & _ & ->). split; [exact Harr|discriminate].
  - destruct Hr as (-> & _ & _).
    destruct (finalize_spec E name path speed fmt l.1.2 l.2) as (-> & _ & _).
    rewrite final_call_units, Hf, Hn. simpl.
    destruct (yielded l.1.1) as [|u us] eqn:Hu; simpl.
    + split; [constructor|]. intros _ Hne. congruence.
    + split.
      * apply Forall_cons in Harr as [Hu1 Hus]. constructor; [exact Hu1|].
        apply Forall_app. split; [exact Hus|repeat constructor].
      * intros _ _. exists (u :: us). split; [discriminate|]. split; [reflexivity|].
        unfold np_concatenate.
        change (u :: us ++ [VArray (Vec [])]) with ((u :: us) ++ [VArray (Vec [])]).
        rewrite map_app, concat_app. simpl.
        now rewrite !app_nil_r.
Qed.

(** ** The legacy backend *)

(** A legacy backend gives at most one unit per segment. *)
Lemma legacy_call_units E c ns (device : string) :
  get_backend E = Returns (Legacy device) ->
  cc_is_last c = false ->
  length (call_units E c ns) <= 1.
Proof.
  intros Hb Hl. unfold call_units. rewrite process_chunk_yielded.
  unfold process_chunk_body. rewrite Hl, Hb. simpl.
  destruct (_ && _); [simpl; lia|].
  destruct (call VoiceManager (load_voice E (cc_voice_name c) device)) as [vt|e];
    [|simpl; lia].
  destruct (call ModelManager (generate_tokens E (cc_tokens c) vt (cc_speed c)))
    as [[a|]|e]; try (simpl; lia).
  destruct (len a) as [[|k]|e]; try (simpl; lia).
  unfold emit_chunk. destruct (format_of (cc_format c)) as [f|].
  - destruct (convert_audio E (Some a) 24000 f (cc_is_first c) false ns) as [r ns'].
    destruct (call AudioService r) as [[bs|]|e]; simpl; lia.
  - simpl. lia.
Qed.

Lemma filter_none {A : Type} (p : A -> bool) (l : list A) :
  Forall (fun x => p x = false) l -> List.filter p l = [].
Proof.
  induction 1 as [|x l Hx _ IH]; simpl; [reflexivity|]. now rewrite Hx.
Qed.

(** X8.  On a legacy backend, with a format set and an encoder that can always
    close a stream, every stream that ends without an exception after
    emitting something has exactly one unit framed as first and exactly one
    framed as last, the last one closing the stream. *)
Theorem legacy_one_first_one_last E (text voice : string) (speed : F)
    (fmt : option string) (f device : string) fs :
  get_backend E = Returns (Legacy device) ->
  format_of fmt = Some f ->
  (forall ns, exists bs,
      (convert_audio E (Some (Vec [f0])) 24000 f false true ns).1 = Returns (Some bs)) ->
  let r := generate_audio_stream E text voice speed fmt fs in
  outcome r = None ->
  yielded (events r) <> [] ->
  one_first_one_last (yielded (events r)).
Proof.
  intros Hb Hf Hclose. cbv zeta.
  pose proof (stream_spec E text voice speed fmt fs) as Hr. cbv zeta in Hr.
  rewrite Hb in Hr. simpl in Hr.
  destruct (_get_voice_path E voice fs) as [[[[name path]|e] evs0] fs'].
  2:{ destruct Hr as (_ & _ & -> & _). discriminate. }
  destruct Hr as (_ & Hr).
  destruct (stream_segments_inv E (smart_split E text).1 name path speed fmt 0
              (new_normalizer E)) as (Hn & _ & Hflags).
  pose proof (stream_segments_first E (smart_split E text).1 name path speed fmt
                (new_normalizer E)) as Hfirst. cbv zeta in Hfirst.
  set (l := stream_segments E (smart_split E text).1 name path speed fmt 0
                            (new_normalizer E)) in *.
  destruct (smart_split E text).2 as [m|].
  { destruct Hr as (_ & _ & ->). discriminate. }
  destruct Hr as (-> & _ & _). intros _.
  destruct (finalize_spec E name path speed fmt l.1.2 l.2) as (-> & _ & _).
  rewrite final_call_units, Hf, Hn. simpl.
  destruct (Hclose l.2) as [bs ->].
  intros Hne.
  assert (Hloop : yielded l.1.1 <> []).
  { intros Hnil. rewrite Hnil in Hne. simpl in Hne. congruence. }
  destruct (Hfirst Hloop) as (c & ns0 & rest & _ & Hcf & Hcl & Hfmt & Hu & Hy & Hrest).
  pose proof (legacy_call_units E c ns0 device Hb Hcl) as Hone.
  pose proof (call_units_framed E c ns0) as Hfr.
  destruct (call_units E c ns0) as [|u [|u' us]]; [congruence| |simpl in Hone; lia].
  apply Forall_cons in Hfr as [[Hnone Hfr] _].
  rewrite Hcf, Hcl, Hfmt in Hfr. simpl in Hfr.
  assert (Hu1 : first_flag u = true).
  { destruct u as [|a|b]; simpl in *; [discriminate|congruence|tauto]. }
  rewrite Hy in Hflags |- *.
  change ([u] ++ rest) with (u :: rest) in *.
  cbn [length Nat.add].
  replace (0 <? S (length rest))%nat with true by reflexivity.
  apply Forall_cons in Hflags as [(_ & Hul & _) Hrl].
  assert (Hr1 : List.filter first_flag rest = []) by exact (filter_none _ _ Hrest).
  assert (Hr2 : List.filter last_flag rest = []).
  { apply filter_none. eapply Forall_impl; [exact Hrl|]. now intros v (_ & ? & _). }
  unfold one_first_one_last.
  rewrite !List.filter_app. cbn [List.filter]. rewrite Hu1, Hul, Hr1, Hr2.
  simpl. repeat split; try reflexivity.
  change (u :: rest ++ [VBytes (Encoded bs false true)])
    with ((u :: rest) ++ [VBytes (Encoded bs false true)]).
  rewrite last_snoc. reflexivity.
Qed.

(** ** The text-native backend *)

Lemma prefix_append (s t : string) : String.prefix s (s +:+ t) = true.
Proof.
  induction s as [|a s IH]; simpl; [destruct t; reflexivity|].
  destruct (ascii_dec a a); [exact IH|congruence].
Qed.

Lemma convert_failure_logged (m : string) :
  is_convert_failure (F:=F) (Log ERROR ("Failed to convert audio: " +:+ m)) = true.
Proof. unfold is_convert_failure. apply prefix_append. Qed.

Lemma process_failure_not_convert (m : string) :
  is_convert_failure (F:=F) (Log ERROR ("Failed to process tokens: " +:+ m)) = false.
Proof. reflexivity. Qed.

Lemma emit_chunks_accounted E (chunks : list (option (ndarray F))) (fmt : option string)
    (fi la : bool) ns :
  length (yielded (emit_chunks E chunks fmt fi la ns).1)
  + length (List.filter is_convert_failure (emit_chunks E chunks fmt fi la ns).1)
  = length chunks.
Proof.
  revert ns. induction chunks as [|a chunks IH]; intros ns; simpl; [reflexivity|].
  unfold emit_chunk. destruct (format_of fmt) as [f|].
  - destruct (convert_audio E a 24000 f fi la ns) as [r ns1].
    specialize (IH ns1).
    destruct (call AudioService r) as [b|e];
      destruct (emit_chunks E chunks fmt fi la ns1) as [evs2 ns2];
      cbn [fst snd app] in *.
    + simpl. lia.
    + cbn [yielded omap List.filter]. rewrite convert_failure_logged.
      simpl in *. lia.
  - specialize (IH ns).
    destruct (emit_chunks E chunks fmt fi la ns) as [evs2 ns2]. simpl in *. lia.
Qed.

(** X9.  On the text-native backend no chunk of the model is lost silently:
    in a call for a segment that is not empty, every chunk the model yields
    is either yielded by the call or reported as "Failed to convert audio",
    also when the model raises after some chunks. *)
Theorem text_native_chunks_accounted E c ns
    (chunks : list (option (ndarray F))) (stop : option string) :
  get_backend E = Returns KokoroV1 ->
  cc_is_last c = false ->
  cc_text c <> "" \/ cc_tokens c <> [] ->
  generate_stream E (cc_text c) (cc_voice_name c, cc_voice_path c) (cc_speed c)
    = (chunks, stop) ->
  length (yielded (_process_chunk E c ns).1.1)
  + length (List.filter is_convert_failure (_process_chunk E c ns).1.1)
  = length chunks.
Proof.
  intros Hb Hl Hne Hg.
  rewrite process_chunk_unfold. cbn [fst snd].
  unfold process_chunk_body. rewrite Hl, Hb, Hg. simpl call.
  replace (bool_decide (cc_tokens c = []) && negb (PyStr.truthy (cc_text c))) with false.
  2:{ symmetry. apply andb_false_iff. destruct Hne as [Ht|Ht].
      - right. destruct (cc_text c); [congruence|reflexivity].
      - left. now apply bool_decide_eq_false. }
  pose proof (emit_chunks_accounted E chunks (cc_format c) (cc_is_first c) false ns) as Hacc.
  destruct (emit_chunks E chunks (cc_format c) (cc_is_first c) false ns) as [evs ns'].
  cbn [fst snd] in *.
  change (yielded (Invoke c :: Acquire :: ?l)) with (yielded l).
  cbn [List.filter is_convert_failure].
  rewrite yielded_app, List.filter_app, !length_app.
  destruct stop as [m|]; cbn [stopped option_map app List.filter];
    rewrite ?process_failure_not_convert; simpl; lia.
Qed.

(** ** Files *)

(** X10.  The resolver writes at most one file.  When it raises, the files are
    as they were.  When it returns, either the files are as they were (a
    single voice) or the spec is a combination, the returned path is its
    scratch path, and that path is the only one written. *)
Theorem resolver_writes_scratch_only E (voice : string) fs :
  let res := (_get_voice_path E voice fs).1.1 in
  let fs' := (_get_voice_path E voice fs).2 in
  (forall e, res = Raise e -> fs' = fs) /\
  (forall name path, res = Ok (name, path) ->
     fs' = fs \/
     (PyStr.contains "+" voice = true /\ path = combined_path E voice /\
      writable E path = true /\
      exists t, fs' = <[path := t]> fs)) /\
  (forall p, p <> combined_path E voice -> fs' !! p = fs !! p).
Proof.
  cbv zeta. unfold _get_voice_path, get_voice_path_body.
  destruct (PyStr.contains "+" voice).
  - destruct (length (combined_names voice) <? 2)%nat; [simpl; split; [|split]; auto; discriminate|].
    destruct (load_voices E fs (combined_names voice)) as [[ts|e] evs];
      [|simpl; split; [|split]; auto; discriminate].
    destruct (torch_stack ts) as [st|e];
      [|simpl; split; [|split]; auto; discriminate].
    unfold torch_save.
    destruct (writable E (combined_path E voice)) eqn:Hw; simpl.
    + split; [discriminate|]. split.
      * intros name path [= <- <-]. right. eauto.
      * intros p Hp. now rewrite lookup_insert_ne.
    + split; [|split]; auto; discriminate.
  - destruct (call VoiceManager (get_voice_path E voice)) as [p|e];
      [|simpl; split; [|split]; auto; discriminate].
    destruct (found_path p); simpl; split; [|split| |split]; auto; discriminate.
Qed.

(** ** Combinations that fail, and combinations resolved again *)

Lemma load_voices_missing E fs (pre post : list string) (v : string)
    (ts : list (tensor F)) :
  Forall2 (fun name t => exists path, get_voice_path E name = Returns (Some path) /\
                                      path <> "" /\ fs !! path = Some t) pre ts ->
  get_voice_path E v = Returns None \/ get_voice_path E v = Returns (Some "") ->
  (load_voices E fs (pre ++ v :: post)).1 = Raise (VoiceNotFound v).
Proof.
  intros Hpre Hv. induction Hpre as [|name t pre ts (path & Hp & Hne & Hfs) _ IH]; simpl.
  - destruct Hv as [-> | ->]; reflexivity.
  - rewrite Hp. simpl. destruct path as [|ch path]; [congruence|]. simpl.
    unfold torch_load. rewrite Hfs.
    destruct (load_voices E fs (pre ++ v :: post)) as [[ts'|e] evs]; simpl in *;
      congruence.
Qed.

(** X12.  In a combination, the first name for which the voice manager has no
    path (or an empty one) decides the result, when the names before it
    resolve and load: the resolver raises [VoiceNotFound] for that name and
    writes nothing, whatever the names after it are. *)
Theorem missing_voice_in_combination E fs (voice : string) (pre post : list string)
    (v : string) (ts : list (tensor F)) :
  PyStr.contains "+" voice = true ->
  combined_names voice = pre ++ v :: post ->
  1 <= length pre + length post ->
  Forall2 (fun name t => exists path, get_voice_path E name = Returns (Some path) /\
                                      path <> "" /\ fs !! path = Some t) pre ts ->
  get_voice_path E v = Returns None \/ get_voice_path E v = Returns (Some "") ->
  (_get_voice_path E voice fs).1.1 = Raise (VoiceNotFound v) /\
  (_get_voice_path E voice fs).2 = fs.
Proof.
  intros Hplus Hnames Hlen Hpre Hv.
  pose proof (load_voices_missing E fs pre post v ts Hpre Hv) as Hload.
  unfold _get_voice_path, get_voice_path_body. rewrite Hplus, Hnames.
  destruct (Nat.ltb_spec (length (pre ++ v :: post)) 2) as [Hlt|_].
  { rewrite length_app in Hlt. simpl in Hlt. lia. }
  destruct (load_voices E fs (pre ++ v :: post)) as [[ts'|e] evs]; simpl in Hload;
    [discriminate|].
  injection Hload as ->. auto.
Qed.

Lemma load_voices_agree E fs fs' (names : list string) :
  (forall name path, In name names -> get_voice_path E name = Returns (Some path) ->
                     fs' !! path = fs !! path) ->
  load_voices E fs' names = load_voices E fs names.
Proof.
  induction names as [|name names IH]; intros Hagree; simpl; [reflexivity|].
  destruct (get_voice_path E name) as [p|m] eqn:Hp; simpl; [|reflexivity].
  destruct p as [q|]; simpl; [|reflexivity].
  destruct (PyStr.truthy q); [|reflexivity].
  unfold torch_load. rewrite (Hagree name q (or_introl eq_refl) Hp).
  rewrite IH; [reflexivity|]. intros n p' Hn. apply Hagree. now right.
Qed.

(** X13.  Resolving a spec a second time, on the files the first resolution
    left, gives the same result and leaves those files as they are, provided
    no voice of a combination is stored at the scratch path of the
    combination itself. *)
Theorem resolve_again E (voice : string) fs (name path : string) evs fs1 :
  _get_voice_path E voice fs = (Ok (name, path), evs, fs1) ->
  (forall n, In n (combined_names voice) ->
             get_voice_path E n <> Returns (Some (combined_path E voice))) ->
  _get_voice_path E voice fs1 = (Ok (name, path), evs, fs1).
Proof.
  unfold _get_voice_path, get_voice_path_body. intros Hrun Hscratch.
  destruct (PyStr.contains "+" voice).
  - destruct (length (combined_names voice) <? 2)%nat; [discriminate|].
    assert (Hagree : forall t,
      load_voices E (<[combined_path E voice := t]> fs) (combined_names voice)
      = load_voices E fs (combined_names voice)).
    { intros t. apply load_voices_agree. intros n p Hn Hp.
      apply lookup_insert_ne. intros <-. exact (Hscratch n Hn Hp). }
    destruct (load_voices E fs (combined_names voice)) as [[ts|e] evs'] eqn:Hload;
      [|discriminate].
    destruct (torch_stack ts) as [st|e] eqn:Hstack; [|discriminate].
    unfold torch_save in *.
    destruct (writable E (combined_path E voice)) eqn:Hw; [|discriminate].
    simpl in Hrun. injection Hrun as <- <- <- <-.
    rewrite Hagree, Hstack. f_equal. apply insert_insert_eq.
  - destruct (call VoiceManager (get_voice_path E voice)) as [p|e]; [|discriminate].
    destruct (found_path p); [|discriminate].
    simpl in *. now injection Hrun as <- <- <- <-.
Qed.

(** ** Which calls are made with [is_first] *)

Lemma fresh_no_invoke (n : nat) evs : invocations evs = [] -> first_iff_fresh n evs.
Proof.
  intros Hi pre c post ->. rewrite invocations_app in Hi. simpl in Hi.
  destruct (invocations pre); discriminate.
Qed.

Lemma fresh_app (n : nat) evs evs' :
  first_iff_fresh n evs ->
  first_iff_fresh (n + length (yielded evs)) evs' ->
  first_iff_fresh n (evs ++ evs').
Proof.
  intros Ha Hb pre c post Heq.
  apply app_eq_app in Heq as [l [[-> Hl]|[-> ->]]].
  - destruct l as [|e l].
    + simpl in Hl. rewrite app_nil_r in Hb.
      rewrite (Hb [] c post (eq_sym Hl)). simpl. lia.
    + simpl in Hl. injection Hl as He Hp. subst e.
      apply (Ha pre c l). reflexivity.
  - rewrite (Hb l c post eq_refl), yielded_app, length_app. lia.
Qed.

Lemma fresh_block (n : nat) c0 evs :
  invocations evs = [] ->
  (cc_is_first c0 = true <-> n = 0) ->
  first_iff_fresh n (Invoke c0 :: evs).
Proof.
  intros Hi Hc pre c post Heq. destruct pre as [|e pre]; simpl in Heq.
  - injection Heq as Hc0 _. subst c0. simpl. rewrite Hc. lia.
  - injection Heq as _ Hevs. subst evs. rewrite invocations_app in Hi. simpl in Hi.
    destruct (invocations pre); discriminate.
Qed.

Lemma relay_segment_invoke (chunk_text : string) c evs (n : nat) :
  (relay_segment chunk_text (Invoke c :: evs) n).1
  = Invoke c :: (relay_segment chunk_text evs n).1.
Proof. simpl. now destruct (relay_segment chunk_text evs n). Qed.

Lemma stream_segments_fresh E (segs : list (string * list Z)) (name path : string)
    (speed : F) (fmt : option string) (n : nat) ns :
  first_iff_fresh n (stream_segments E segs name path speed fmt n ns).1.1.
Proof.
  revert n ns. induction segs as [|[chunk_text tokens] segs IH]; intros n ns.
  - apply fresh_no_invoke. reflexivity.
  - rewrite stream_segments_cons. cbv zeta. cbn [fst snd].
    set (c := ChunkCall chunk_text tokens name path speed fmt (n =? 0)%nat false).
    destruct (relay_segment_spec chunk_text (_process_chunk E c ns).1.1 n)
      as (Ry & _ & Ri).
    rewrite process_chunk_invocations in Ri.
    apply fresh_app.
    + rewrite process_chunk_unfold in Ri |- *. cbn [fst snd] in Ri |- *.
      rewrite relay_segment_invoke in Ri |- *.
      apply fresh_block.
      * simpl in Ri. now injection Ri.
      * simpl. split; [now intros ?%Nat.eqb_eq|now intros ->].
    + rewrite Ry. fold (call_units E c ns). apply IH.
Qed.

Lemma finalize_fresh E (name path : string) (speed : F) (fmt : option string)
    (n : nat) ns :
  first_iff_fresh n (finalize E name path speed fmt n ns).1.
Proof.
  destruct (finalize_spec E name path speed fmt n ns) as (_ & Fi & F0).
  destruct n as [|n].
  - rewrite F0 by reflexivity. apply fresh_no_invoke. reflexivity.
  - simpl in Fi. intros pre c post Heq.
    rewrite Heq, invocations_app in Fi. simpl in Fi.
    destruct (invocations pre) as [|c' cs]; simpl in Fi.
    + injection Fi as -> _. simpl. split; [discriminate|lia].
    + destruct cs; discriminate.
Qed.

(** X14.  In every stream, a [_process_chunk] call is made with
    [is_first=True] exactly when no unit has been emitted before it: a first
    segment that fails or is passed over hands the flag on to the next one,
    and the finalization call never has it. *)
Theorem first_flag_iff_nothing_emitted E (text voice : string) (speed : F)
    (fmt : option string) fs (pre post : list (event F)) c :
  events (generate_audio_stream E text voice speed fmt fs) = pre ++ Invoke c :: post ->
  (cc_is_first c = true <-> yielded pre = []).
Proof.
  assert (Hfresh : first_iff_fresh 0
            (events (generate_audio_stream E text voice speed fmt fs))).
  { unfold generate_audio_stream.
    destruct (call ModelManager (get_backend E)) as [b|e];
      [|apply fresh_no_invoke; reflexivity].
    destruct (resolver_logs E voice fs) as [Hri Hry].
    destruct (_get_voice_path E voice fs) as [[[[name path]|e] evs0] fs'];
      simpl in Hri, Hry.
    2:{ apply fresh_no_invoke. simpl. now rewrite invocations_app, Hri. }
    destruct (smart_split E text) as [segs stop].
    pose proof (stream_segments_fresh E segs name path speed fmt 0 (new_normalizer E))
      as Hloop.
    destruct (stream_segments_inv E segs name path speed fmt 0 (new_normalizer E))
      as (Hn & _ & _).
    destruct (stream_segments E segs name path speed fmt 0 (new_normalizer E))
      as [[evs2 n] ns]. simpl in Hloop, Hn.
    assert (Hpre : first_iff_fresh 0
              ((evs0 ++ [Log DEBUG ("Using voice path: " +:+ path)]) ++ evs2)).
    { apply fresh_app.
      - apply fresh_no_invoke. now rewrite invocations_app, Hri.
      - rewrite yielded_app, Hry. exact Hloop. }
    destruct (stopped TextProcessor stop) as [e|]; simpl.
    - apply fresh_app; [exact Hpre|].
      apply fresh_no_invoke. reflexivity.
    - pose proof (finalize_fresh E name path speed fmt n ns) as Hfin.
      destruct (finalize E name path speed fmt n ns) as [evs3 ns']. simpl in *.
      rewrite app_assoc. apply fresh_app; [exact Hpre|].
      rewrite !yielded_app, Hry. simpl. rewrite <- Hn. exact Hfin. }
  intros Heq. rewrite (Hfresh pre c post Heq). simpl.
  split; [apply length_zero_iff_nil|now intros ->].
Qed.

(** ** Permits within one request *)

Lemma discipline_app (h : nat) evs evs' :
  permit_discipline h evs -> permit_discipline 0 evs' ->
  permit_discipline h (evs ++ evs').
Proof.
  revert h. induction evs as [|e evs IH]; intros h Ha Hb; simpl in *.
  - now subst h.
  - destruct e; try (apply IH; assumption); destruct Ha as [-> Ha]; split; auto.
Qed.

Lemma relay_segment_discipline (chunk_text : string) evs (n h : nat) :
  permit_discipline h evs -> permit_discipline h (relay_segment chunk_text evs n).1.
Proof.
  revert n h. induction evs as [|e evs IH]; intros n h Hd; simpl in *; [exact Hd|].
  destruct e as [c| | |v|l m].
  - specialize (IH n h Hd). now destruct (relay_segment chunk_text evs n).
  - destruct Hd as [-> Hd]. specialize (IH n 1 Hd).
    destruct (relay_segment chunk_text evs n). simpl. auto.
  - destruct Hd as [-> Hd]. specialize (IH n 0 Hd).
    destruct (relay_segment chunk_text evs n). simpl. auto.
  - destruct (is_none v).
    + specialize (IH n h Hd). now destruct (relay_segment chunk_text evs n).
    + specialize (IH (S n) h Hd). now destruct (relay_segment chunk_text evs (S n)).
  - specialize (IH n h Hd). now destruct (relay_segment chunk_text evs n).
Qed.

Lemma relay_final_discipline evs (h : nat) :
  permit_discipline h evs -> permit_discipline h (relay_final evs).
Proof.
  unfold relay_final. revert h. induction evs as [|e evs IH]; intros h Hd; simpl in *;
    [exact Hd|].
  destruct e as [c| | |v|l m]; simpl; auto.
  - destruct Hd as [-> Hd]. auto.
  - destruct Hd as [-> Hd]. auto.
  - destruct (is_none v); simpl; auto.
Qed.

Lemma stream_segments_discipline E (segs : list (string * list Z)) (name path : string)
    (speed : F) (fmt : option string) (n : nat) ns :
  permit_discipline 0 (stream_segments E segs name path speed fmt n ns).1.1.
Proof.
  revert n ns. induction segs as [|[chunk_text tokens] segs IH]; intros n ns.
  - reflexivity.
  - rewrite stream_segments_cons. cbv zeta. cbn [fst snd].
    apply discipline_app; [|apply IH].
    apply relay_segment_discipline, process_chunk_disciplined.
Qed.

Lemma finalize_discipline E (name path : string) (speed : F) (fmt : option string)
    (n : nat) ns :
  permit_discipline 0 (finalize E name path speed fmt n ns).1.
Proof.
  unfold finalize. destruct (0 <? n)%nat; [|reflexivity].
  pose proof (process_chunk_disciplined E (final_call name path speed fmt) ns) as Hd.
  pose proof (process_chunk_unfold E (final_call name path speed fmt) ns) as Hp.
  destruct (_process_chunk E (final_call name path speed fmt) ns) as [[evs stop] ns'].
  injection Hp as _ -> _. simpl in *. rewrite app_nil_r.
  now apply relay_final_discipline.
Qed.

Lemma load_voices_quiet E fs (voices : list string) :
  Forall quiet (load_voices E fs voices).2.
Proof.
  induction voices as [|v voices IH]; simpl; [constructor|].
  destruct (call VoiceManager (get_voice_path E v)) as [p|e]; [|constructor].
  destruct (found_path p) as [q|]; [|constructor].
  destruct (torch_load fs q); [|repeat constructor].
  destruct (load_voices E fs voices) as [[ts|e] evs]; simpl in *;
    constructor; auto; exact I.
Qed.

(** The resolver only logs. *)
Lemma resolver_quiet E (voice : string) fs :
  Forall quiet (_get_voice_path E voice fs).1.2.
Proof.
  assert (Hbody : Forall quiet (get_voice_path_body E voice fs).1.2).
  { unfold get_voice_path_body.
    destruct (PyStr.contains "+" voice).
    - destruct (length (combined_names voice) <? 2)%nat; [constructor|].
      pose proof (load_voices_quiet E fs (combined_names voice)) as Hq.
      destruct (load_voices E fs (combined_names voice)) as [[ts|e] evs];
        simpl in *; [|exact Hq].
      destruct (torch_stack ts) as [st|e]; simpl.
      + unfold torch_save. destruct (writable E _); simpl;
          apply Forall_app; split; auto; repeat constructor.
      + apply Forall_app; split; auto; repeat constructor.
    - destruct (call VoiceManager (get_voice_path E voice)) as [p|e]; [|constructor].
      destruct (found_path p); simpl; repeat constructor. }
  unfold _get_voice_path.
  destruct (get_voice_path_body E voice fs) as [[[r|e] evs] fs']; simpl in *;
    [exact Hbody|].
  apply Forall_app; split; auto; repeat constructor.
Qed.

Lemma quiet_discipline evs : Forall quiet evs -> permit_discipline 0 evs.
Proof.
  intros Hq. rewrite <- (app_nil_r evs). now apply discipline_quiet.
Qed.

(** X15.  A request never holds two permits: over the whole run of a stream,
    each permit taken by a [_process_chunk] call is given back before the
    next one is taken, and none is held when the stream ends, however it
    ends. *)
Theorem stream_permit_discipline E (text voice : string) (speed : F)
    (fmt : option string) fs :
  permit_discipline 0 (events (generate_audio_stream E text voice speed fmt fs)).
Proof.
  unfold generate_audio_stream.
  destruct (call ModelManager (get_backend E)) as [b|e]; [|simpl; auto].
  pose proof (resolver_quiet E voice fs) as Hq.
  destruct (_get_voice_path E voice fs) as [[[[name path]|e] evs0] fs']; simpl in Hq.
  2:{ simpl. apply quiet_discipline, Forall_app. split; auto. repeat constructor. }
  destruct (smart_split E text) as [segs stop].
  pose proof (stream_segments_discipline E segs name path speed fmt 0 (new_normalizer E))
    as Hloop.
  destruct (stream_segments E segs name path speed fmt 0 (new_normalizer E))
    as [[evs2 n] ns]. simpl in Hloop.
  assert (Hpre : permit_discipline 0
            ((evs0 ++ [Log DEBUG ("Using voice path: " +:+ path)]) ++ evs2)).
  { apply discipline_app; [|exact Hloop].
    apply quiet_discipline, Forall_app. split; auto. repeat constructor. }
  destruct (stopped TextProcessor stop) as [e|]; simpl.
  - apply discipline_app; [exact Hpre|reflexivity].
  - pose proof (finalize_discipline E name path speed fmt n ns) as Hfin.
    destruct (finalize E name path speed fmt n ns) as [evs3 ns']. simpl in *.
    rewrite app_assoc. apply discipline_app; assumption.
Qed.

(** ** What every call of a stream carries *)

Lemma stream_segments_calls E (segs : list (string * list Z)) (name path : string)
    (speed : F) (fmt : option string) (n : nat) ns :
  Forall (fun c => cc_voice_name c = name /\ cc_voice_path c = path /\
                   cc_speed c = speed /\ cc_format c = fmt)
         (invocations (stream_segments E segs name path speed fmt n ns).1.1).
Proof.
  revert n ns. induction segs as [|[chunk_text tokens] segs IH]; intros n ns.
  - constructor.
  - rewrite stream_segments_cons. cbv zeta. simpl.
    destruct (relay_segment_spec chunk_text
      (_process_chunk E (ChunkCall chunk_text tokens name path speed fmt (n =? 0)%nat false)
                      ns).1.1 n) as (_ & _ & Ri).
    rewrite invocations_app, Ri, process_chunk_invocations.
    constructor; [simpl; auto|apply IH].
Qed.

(** X16.  The voice is resolved once and threaded through the request: every
    [_process_chunk] call of a stream, the finalization call included, is
    made with the spec itself as the voice name, the path the resolver
    returned, and the speed and format of the request. *)
Theorem calls_carry_the_resolved_voice E (text voice : string) (speed : F)
    (fmt : option string) fs :
  Forall (fun c => cc_voice_name c = voice /\
                   (_get_voice_path E voice fs).1.1 = Ok (voice, cc_voice_path c) /\
                   cc_speed c = speed /\ cc_format c = fmt)
         (invocations (events (generate_audio_stream E text voice speed fmt fs))).
Proof.
  pose proof (stream_spec E text voice speed fmt fs) as Hr. cbv zeta in Hr.
  destruct (call ModelManager (get_backend E)) as [b|e].
  2:{ destruct Hr as (_ & -> & _). constructor. }
  pose proof (resolver_name E voice fs) as Hname.
  destruct (_get_voice_path E voice fs) as [[[[name path]|e] evs0] fs'].
  2:{ destruct Hr as (_ & -> & _). constructor. }
  specialize (Hname name path eq_refl). subst name. destruct Hr as (_ & Hr).
  pose proof (stream_segments_calls E (smart_split E text).1 voice path speed fmt 0
                (new_normalizer E)) as Hloop.
  assert (Hloop' : Forall (fun c => cc_voice_name c = voice /\
                      Ok (voice, path) = Ok (voice, cc_voice_path c) /\
                      cc_speed c = speed /\ cc_format c = fmt)
            (invocations (stream_segments E (smart_split E text).1 voice path speed fmt 0
                            (new_normalizer E)).1.1)).
  { eapply Forall_impl; [exact Hloop|]. intros c (? & -> & ? & ?). auto. }
  simpl. destruct (smart_split E text).2 as [m|].
  - destruct Hr as (_ & -> & _). exact Hloop'.
  - destruct Hr as (_ & -> & _). apply Forall_app. split; [exact Hloop'|].
    destruct (finalize_spec E voice path speed fmt
                (stream_segments E (smart_split E text).1 voice path speed fmt 0
                   (new_normalizer E)).1.2
                (stream_segments E (smart_split E text).1 voice path speed fmt 0
                   (new_normalizer E)).2) as (_ & -> & _).
    destruct (0 <? _)%nat; repeat constructor.
Qed.

(** ** Permits across requests *)

(** X17.  No permit leaks: however the event loop has interleaved the calls,
    once every call has nothing left to do (it ended, or was closed by its
    consumer) all 4 permits are free again, and no call was lost on the
    way. *)
Theorem no_permit_leak (calls : list (env F nstate * chunk_call F * nstate))
    (s : pool F) :
  rtc pool_step (pool_init calls) s ->
  length (tasks s) = length calls /\
  (Forall (fun t => todo t = []) (tasks s) -> permits s = _chunk_semaphore).
Proof.
  intros Hrun. split.
  - revert s Hrun. apply (rtc_ind_r (fun s => length (tasks s) = length calls)).
    + unfold pool_init. simpl. apply length_map.
    + intros s s' _ Hstep IH. destruct Hstep. simpl. now rewrite length_insert.
  - destruct (pool_reachable_ok calls s Hrun) as [Hd Hsum]. intros Hdone.
    assert (Hz : sum_list (map held (tasks s)) = 0).
    { clear Hsum. induction (tasks s) as [|t ts IH]; [reflexivity|].
      apply Forall_cons in Hd as [Ht Hd]. apply Forall_cons in Hdone as [Hn Hdone].
      rewrite Hn in Ht. simpl in *. rewrite Ht. auto. }
    lia.
Qed.

End MoreProperties.

(** * The further properties on concrete services *)

(** The segment ["b"], for which the model returns [None], leaves no trace. *)
Lemma passed_over_segment_is_transparent_witness :
  smart_split silent_service "a.b.c"
    = ([("a", [97%Z])] ++ ("b", [98%Z]) :: [("c", [99%Z])], None) /\
  smart_split silent_service "a.c" = ([("a", [97%Z])] ++ [("c", [99%Z])], None) /\
  passed_over silent_service ("b", [98%Z]) "af" 1%Q /\
  yielded (events (generate_audio_stream silent_service "a.b.c" "af" 1%Q (Some "wav")
                     voice_files))
  = yielded (events (generate_audio_stream silent_service "a.c" "af" 1%Q (Some "wav")
                       voice_files)).
Proof.
  assert (Hp : passed_over silent_service ("b", [98%Z]) "af" 1%Q).
  { right. exists "cpu", (Tensor [2] [1%Q; 3%Q]). repeat split; auto. }
  split; [reflexivity|]. split; [reflexivity|]. split; [exact Hp|].
  apply (passed_over_segment_is_transparent silent_service "a.b.c" "a.c" "af" 1%Q
           (Some "wav") voice_files [("a", [97%Z])] [("c", [99%Z])] ("b", [98%Z]));
    [reflexivity|reflexivity|exact Hp].
Defined.

(** An unknown voice: the stream raises [VoiceNotFound] at once. *)
Lemma setup_failure_propagates_witness :
  (_get_voice_path legacy_service "zz" voice_files).1.1 = Raise (VoiceNotFound "zz") /\
  outcome (generate_audio_stream legacy_service "a.b" "zz" 1%Q (Some "wav") voice_files)
    = Some (VoiceNotFound "zz") /\
  invocations (events (generate_audio_stream legacy_service "a.b" "zz" 1%Q (Some "wav")
                         voice_files)) = [] /\
  (generate_audio legacy_service "a.b" "zz" 1%Q voice_files).1.1
    = Raise (VoiceNotFound "zz").
Proof.
  split; [reflexivity|].
  destruct (setup_failure_propagates legacy_service "a.b" "zz" 1%Q (Some "wav")
              voice_files (VoiceNotFound "zz")) as (Ho & _ & Hi & _ & Hg).
  - right. split; [eexists; reflexivity|reflexivity].
  - auto.
Defined.

(** A segmenter that raises after two segments: their chunks, no trailer. *)
Lemma segmenter_failure_ends_stream_witness :
  smart_split broken_segmenter_service "a.b"
    = ([("a", [97%Z]); ("b", [98%Z])], Some "tokenizer crashed") /\
  outcome (generate_audio_stream broken_segmenter_service "a.b" "af" 1%Q (Some "wav")
             voice_files) = Some (CollabError TextProcessor "tokenizer crashed") /\
  yielded (events (generate_audio_stream broken_segmenter_service "a.b" "af" 1%Q
                     (Some "wav") voice_files))
  = [VBytes (Encoded [Byte.x2a] true false); VBytes (Encoded [Byte.x2a] false false)] /\
  (generate_audio broken_segmenter_service "a.b" "af" 1%Q voice_files).1.1
    = Raise (CollabError TextProcessor "tokenizer crashed").
Proof.
  split; [reflexivity|].
  destruct (segmenter_failure_ends_stream broken_segmenter_service "a.b" "af" 1%Q
              (Some "wav") voice_files (Legacy "cpu") "af" "/voices/af.pt"
              [("a", [97%Z]); ("b", [98%Z])] "tokenizer crashed")
    as (Ho & Hy & _ & _ & Hg); [reflexivity|reflexivity|reflexivity|].
  split; [exact Ho|]. split; [rewrite Hy; reflexivity|exact Hg].
Defined.

(** The empty format streams what no format streams. *)
Lemma format_truth_value_witness :
  format_of (Some "") = format_of None /\
  yielded (events (generate_audio_stream legacy_service "a.b" "af" 1%Q (Some "")
                     voice_files))
  = yielded (events (generate_audio_stream legacy_service "a.b" "af" 1%Q None
                       voice_files)).
Proof.
  split; [reflexivity|].
  apply (format_truth_value legacy_service "a.b" "af" 1%Q (Some "") None voice_files).
  reflexivity.
Defined.

(** Raw audio with an encoder that always fails is raw audio all the same. *)
Lemma raw_stream_ignores_encoder_witness :
  format_of None = None /\
  generate_audio_stream (with_encoder legacy_service no_encoder 7%nat) "a.b" "af" 1%Q
                        None voice_files
  = generate_audio_stream legacy_service "a.b" "af" 1%Q None voice_files.
Proof.
  split; [reflexivity|].
  apply (raw_stream_ignores_encoder legacy_service no_encoder 7%nat "a.b" "af" 1%Q None
           voice_files).
  reflexivity.
Defined.

(** A raw stream of two segments ends with the empty array. *)
Lemma raw_stream_units_witness :
  outcome (generate_audio_stream legacy_service "a.b" "af" 1%Q None voice_files) = None /\
  Forall (fun v => is_array v = true)
         (yielded (events (generate_audio_stream legacy_service "a.b" "af" 1%Q None
                             voice_files))) /\
  exists body,
    body <> [] /\
    yielded (events (generate_audio_stream legacy_service "a.b" "af" 1%Q None
                       voice_files)) = body ++ [VArray (Vec [])] /\
    np_concatenate (yielded (events (generate_audio_stream legacy_service "a.b" "af" 1%Q
                                       None voice_files))) = np_concatenate body.
Proof.
  split; [reflexivity|].
  destruct (raw_stream_units legacy_service "a.b" "af" 1%Q None voice_files)
    as [Harr Hbody]; [reflexivity|].
  split; [exact Harr|]. apply Hbody; [reflexivity|discriminate].
Defined.

(** The legacy service frames one unit as first and one as last. *)
Lemma legacy_one_first_one_last_witness :
  get_backend legacy_service = Returns (Legacy "cpu") /\
  outcome (generate_audio_stream legacy_service "a.b" "af" 1%Q (Some "wav") voice_files)
    = None /\
  one_first_one_last
    (yielded (events (generate_audio_stream legacy_service "a.b" "af" 1%Q (Some "wav")
                        voice_files))).
Proof.
  split; [reflexivity|]. split; [reflexivity|].
  apply (legacy_one_first_one_last legacy_service "a.b" "af" 1%Q (Some "wav") "wav" "cpu"
           voice_files).
  - reflexivity.
  - reflexivity.
  - intros ns. exists [Byte.x2a]. reflexivity.
  - reflexivity.
  - discriminate.
Defined.

(** Two chunks from the model, two units from the call. *)
Lemma text_native_chunks_accounted_witness :
  get_backend kokoro_service = Returns KokoroV1 /\
  length (yielded (_process_chunk kokoro_service (a_call.1.2) 0%nat).1.1)
  + length (List.filter is_convert_failure
              (_process_chunk kokoro_service (a_call.1.2) 0%nat).1.1)
  = 2.
Proof.
  split; [reflexivity|].
  apply (text_native_chunks_accounted kokoro_service (a_call.1.2) 0%nat
           [Some (Vec [1%Q]); Some (Vec [2%Q])] None).
  - reflexivity.
  - reflexivity.
  - left. discriminate.
  - reflexivity.
Defined.

(** ["af+zz+bf"]: the unknown second voice decides. *)
Lemma missing_voice_in_combination_witness :
  combined_names "af+zz+bf" = ["af"] ++ "zz" :: ["bf"] /\
  (_get_voice_path legacy_service "af+zz+bf" voice_files).1.1
    = Raise (VoiceNotFound "zz") /\
  (_get_voice_path legacy_service "af+zz+bf" voice_files).2 = voice_files.
Proof.
  split; [reflexivity|].
  apply (missing_voice_in_combination legacy_service voice_files "af+zz+bf"
           ["af"] ["bf"] "zz" [Tensor [2] [1%Q; 3%Q]]).
  - reflexivity.
  - reflexivity.
  - simpl. lia.
  - repeat constructor. exists "/voices/af.pt".
    split; [reflexivity|]. split; [discriminate|reflexivity].
  - left. reflexivity.
Defined.

(** ["af+bf"] resolved twice. *)
Lemma resolve_again_witness :
  _get_voice_path legacy_service "af+bf"
                  (_get_voice_path legacy_service "af+bf" voice_files).2
  = (Ok ("af+bf", "/tmp/af+bf.pt"),
     (_get_voice_path legacy_service "af+bf" voice_files).1.2,
     (_get_voice_path legacy_service "af+bf" voice_files).2).
Proof.
  apply (resolve_again legacy_service "af+bf" voice_files).
  - reflexivity.
  - intros n [<-|[<-|[]]]; discriminate.
Defined.

(** The first segment fails, the second is called with [is_first=True]. *)
Lemma first_flag_iff_nothing_emitted_witness :
  events (generate_audio_stream flaky_service "b.a" "af" 1%Q (Some "wav") voice_files)
  = take 6 (events (generate_audio_stream flaky_service "b.a" "af" 1%Q (Some "wav")
                      voice_files))
    ++ Invoke (ChunkCall "a" [97%Z] "af" "/voices/af.pt" 1%Q (Some "wav") true false)
    :: drop 7 (events (generate_audio_stream flaky_service "b.a" "af" 1%Q (Some "wav")
                         voice_files)) /\
  yielded (take 6 (events (generate_audio_stream flaky_service "b.a" "af" 1%Q
                             (Some "wav") voice_files))) = [].
Proof.
  split; [reflexivity|].
  apply (first_flag_iff_nothing_emitted flaky_service "b.a" "af" 1%Q (Some "wav")
           voice_files _
           (drop 7 (events (generate_audio_stream flaky_service "b.a" "af" 1%Q
                              (Some "wav") voice_files)))
           (ChunkCall "a" [97%Z] "af" "/voices/af.pt" 1%Q (Some "wav") true false)).
  - reflexivity.
  - reflexivity.
Defined.

(** One call being closed by its consumer. *)
Ltac close i :=
  eapply rtc_l; [eapply (pool_step_at i); [reflexivity|apply ts_close]|];
  cbn [permits tasks].

(** One call enters and is abandoned, the others are closed before they
    start: the four permits are free. *)
Lemma no_permit_leak_witness :
  rtc pool_step (pool_init five_calls) all_done /\
  length (tasks all_done) = length five_calls /\
  permits all_done = _chunk_semaphore.
Proof.
  assert (Hrun : rtc pool_step (pool_init five_calls) all_done).
  { enter 0. close 0. close 1. close 2. close 3. close 4.
    vm_compute. apply rtc_refl. }
  split; [exact Hrun|].
  destruct (no_permit_leak five_calls all_done Hrun) as [Hlen Hfree].
  split; [exact Hlen|]. apply Hfree. repeat constructor.
Defined.
